(** * sh61: the command list and its execution

    A shallow embedding of [pset5/sh61.c] (with the declarations of
    [pset5/sh61.h]).  The shell process is a state-passing program over a
    small model of the operating system: a table of child processes, a
    discrete clock, the terminal's foreground group and the sequence of
    system calls performed so far.  *)

From Stdlib Require Import ZArith Lia Bool Ascii.
From Equations Require Import Equations.
From Equations.Prop Require Import Logic.
From stdpp Require Import base list strings.

Open Scope Z_scope.

(** ** Constants of [sh61.h] and of the C library *)

Definition TOKEN_NORMAL : Z := 0.
Definition TOKEN_REDIRECTION : Z := 1.
Definition TOKEN_SEQUENCE : Z := 2.
Definition TOKEN_BACKGROUND : Z := 3.
Definition TOKEN_PIPE : Z := 4.
Definition TOKEN_AND : Z := 5.
Definition TOKEN_OR : Z := 6.
Definition TOKEN_LPAREN : Z := 7.
Definition TOKEN_RPAREN : Z := 8.
Definition TOKEN_OTHER : Z := -1.

(** [<stdlib.h>], [<sys/wait.h>] and [<signal.h>] as glibc defines them. *)
Definition EXIT_SUCCESS : Z := 0.
Definition EXIT_FAILURE : Z := 1.
Definition WNOHANG : Z := 1.
Definition SIGTTOU : Z := 22.

Definition BUILTIN_CD : string := "cd".
Definition BUILTIN_EXIT : string := "exit".

(** ** struct command *)

(** A [char*] is [None] for [NULL].  A cell of a [char**] array holds a
    pointer, or is indeterminate (fresh from [realloc], never written).
    [argc], an [int], is a [Z]: it counts the words of one line, which holds
    fewer than BUFSIZ characters, and cannot overflow. *)
Definition NULL : option string := None.

Inductive cell :=
| Junk
| Ptr (p : option string).

#[local] Unset Elimination Schemes.
Inductive command := Command {
  argc : Z;                 (* number of arguments *)
  argv : list cell;         (* arguments; the empty array stands for NULL *)
  pid : Z;                  (* process ID running this command, -1 if none *)
  background : Z;
  next : option command     (* next command in list *)
}.
#[local] Set Elimination Schemes.

Definition set_argc (n : Z) (c : command) : command :=
  Command n (argv c) (pid c) (background c) (next c).
Definition set_argv (a : list cell) (c : command) : command :=
  Command (argc c) a (pid c) (background c) (next c).
Definition set_pid (p : Z) (c : command) : command :=
  Command (argc c) (argv c) p (background c) (next c).
Definition set_background (b : Z) (c : command) : command :=
  Command (argc c) (argv c) (pid c) b (next c).
Definition set_next (n : option command) (c : command) : command :=
  Command (argc c) (argv c) (pid c) (background c) n.

(** [command_alloc()] *)
Definition command_alloc : command :=
  Command 0 [] (-1) 0 None.

(** [realloc(a, n * sizeof(char* ))]: the first [n] cells are kept, the array
    grows with indeterminate cells. *)
Definition realloc (a : list cell) (n : nat) : list cell :=
  take n a ++ replicate (n - length a) Junk.

(** [command_append_arg(c, word)] *)
Definition command_append_arg (c : command) (word : string) : command :=
  let a := realloc (argv c) (Z.to_nat (argc c + 2)) in
  let a := <[Z.to_nat (argc c) := Ptr (Some word)]> a in
  let a := <[Z.to_nat (argc c + 1) := Ptr NULL]> a in
  set_argc (argc c + 1) (set_argv a c).

(** The commands of a list, first to last, following [next]. *)
Fixpoint nodes (c : command) : list command :=
  match c with
  | Command _ _ _ _ nx =>
      c :: match nx with
           | None => []
           | Some n => nodes n
           end
  end.

(** [eval_line] keeps two pointers into one list: [c1], its head, and
    [current], its last command (the only one whose [next] is still NULL).
    [at_current f c1] is the list after the update [f] of [*current]. *)
Fixpoint at_current (f : command -> command) (c1 : command) : command :=
  match c1 with
  | Command n a p b nx =>
      match nx with
      | None => f c1
      | Some c2 => Command n a p b (Some (at_current f c2))
      end
  end.

(** The array [a] read as a NULL-terminated vector of strings, the way
    [execvp] reads it; [None] when the read meets an indeterminate cell or
    runs off the array. *)
Fixpoint c_strings (a : list cell) : option (list string) :=
  match a with
  | [] => None
  | Junk :: _ => None
  | Ptr None :: _ => Some []
  | Ptr (Some s) :: a' =>
      match c_strings a' with
      | Some l => Some (s :: l)
      | None => None
      end
  end.

(** The pointer [c->argv[i]]; [None] when the cell lies outside the array
    or is indeterminate, and the read is undefined. *)
Definition argv_at (c : command) (i : nat) : option (option string) :=
  match argv c !! i with
  | Some (Ptr p) => Some p
  | _ => None
  end.

(** ** The operating system *)

(** The shell's own calls take no time; time passes while the shell sleeps
    in [waitpid] or waits for its input.  A child is given its whole life at
    the [fork]: the calls it makes, when it terminates and its status. *)

Inductive event :=
| Ev_set_foreground (pgid : Z)
| Ev_handle_signal (signo : Z)
| Ev_prompt (dir : string)
| Ev_chdir (path : option string) (ret : Z)
| Ev_perror (msg : string)
| Ev_stderr (msg : string)
| Ev_fork (ret : Z)
| Ev_waitpid (pid options ret : Z) (status : option Z)
| Ev_exit (status : Z)
| Ev_child_execvp (self : Z) (file : string) (args : list string) (ok : bool)
| Ev_child_perror (self : Z) (msg : string)
| Ev_child_exit (self : Z) (status : Z).

(** A child of the shell that has not been waited for: it terminates at
    time [p_exit_at] (never, when [None]) with exit status [p_status], and
    is a zombie from then on. *)
Record proc := Proc {
  p_pid : Z;
  p_exit_at : option nat;
  p_status : Z
}.

Record world := World {
  now : nat;                  (* the clock *)
  next_pid : positive;        (* the next process ID fork hands out *)
  children : list proc;       (* children not yet waited for, oldest first *)
  cwd : string;               (* working directory of the shell process *)
  sh_pgid : Z;                (* process group of the shell and of its children *)
  tty_pgid : Z;               (* foreground process group of the terminal *)
  ignored : list Z;           (* signals whose disposition is SIG_IGN *)
  trace : list event          (* the calls made so far, oldest first *)
}.

(** What the shell cannot know beforehand: whether [execvp] finds a program
    and, if so, how long the process [self] then runs ([None]: for ever)
    and its exit status; where a path leads from a directory; how many
    children the shell may have. *)
Record machine := Machine {
  program : Z -> string -> list string -> option (option nat * Z);
  resolve : string -> string -> option string;
  rlimit_nproc : nat
}.

Inductive outcome (A : Type) :=
| Ret (a : A) (w : world)          (* the call returns [a] *)
| Exited (status : Z) (w : world)  (* the shell has called [_exit] *)
| Hung (w : world)                 (* the shell blocks in [waitpid] for ever *)
| Fault (w : world).               (* undefined behaviour *)
Arguments Ret {A} a w.
Arguments Exited {A} status w.
Arguments Hung {A} w.
Arguments Fault {A} w.

Definition M (A : Type) : Type := world -> outcome A.

#[export] Instance M_ret : MRet M := fun A a w => Ret a w.
#[export] Instance M_bind : MBind M := fun A B f m w =>
  match m w with
  | Ret a w' => f a w'
  | Exited st w' => Exited st w'
  | Hung w' => Hung w'
  | Fault w' => Fault w'
  end.

Definition log (e : list event) (w : world) : world :=
  World (now w) (next_pid w) (children w) (cwd w) (sh_pgid w) (tty_pgid w)
        (ignored w) (trace w ++ e).

Definition emit (e : event) : M unit := fun w => Ret tt (log [e] w).

Definition fault {A} : M A := fun w => Fault w.

Definition _exit {A} (status : Z) : M A := fun w =>
  Exited status (log [Ev_exit status] w).

Definition perror (msg : string) : M unit := emit (Ev_perror msg).

Definition fprintf_stderr (msg : string) : M unit := emit (Ev_stderr msg).

(** Time passes while the shell blocks reading its input. *)
Definition elapse (d : nat) : M unit := fun w =>
  Ret tt (World (now w + d)%nat (next_pid w) (children w) (cwd w) (sh_pgid w)
                (tty_pgid w) (ignored w) (trace w)).

(** Modelled from the spec: [set_foreground] is declared in [sh61.h] and
    defined outside the sources; it marks [pgid] as the terminal's
    foreground process group, [0] standing for the shell's own group. *)
Definition set_foreground (pgid : Z) : M Z := fun w =>
  Ret 0 (World (now w) (next_pid w) (children w) (cwd w) (sh_pgid w)
               (if pgid =? 0 then sh_pgid w else pgid) (ignored w)
               (trace w ++ [Ev_set_foreground pgid])).

(** [handle_signal(signo, SIG_IGN)] *)
Definition handle_signal_ign (signo : Z) : M Z := fun w =>
  Ret 0 (World (now w) (next_pid w) (children w) (cwd w) (sh_pgid w)
               (tty_pgid w) (signo :: ignored w)
               (trace w ++ [Ev_handle_signal signo])).

(** ** Children: [waitpid] *)

(** Which children [waitpid(pid, ...)] waits for.  No process ever leaves
    the shell's process group: [setpgid] is not called anywhere. *)
Definition wait_matches (w : world) (pid : Z) (p : proc) : bool :=
  if pid =? -1 then true
  else if pid =? 0 then true
  else if 0 <? pid then p_pid p =? pid
  else - pid =? sh_pgid w.

(** The child of [l] that terminates first, among those that terminate;
    the older one on a tie. *)
Fixpoint first_exit (l : list proc) : option (nat * proc) :=
  match l with
  | [] => None
  | p :: l' =>
      match p_exit_at p, first_exit l' with
      | None, r => r
      | Some t, None => Some (t, p)
      | Some t, Some (t', q) => if (t <=? t')%nat then Some (t, p) else Some (t', q)
      end
  end.

Definition reap (p : proc) (l : list proc) : list proc :=
  filter (fun q => p_pid q ≠ p_pid p) l.

Definition waited (pid options : Z) (t : nat) (p : proc) (w : world)
  : outcome (Z * option Z) :=
  Ret (p_pid p, Some (p_status p))
      (World t (next_pid w) (reap p (children w)) (cwd w) (sh_pgid w)
             (tty_pgid w) (ignored w)
             (trace w ++ [Ev_waitpid pid options (p_pid p) (Some (p_status p))])).

(** [waitpid(pid, &status, options)]: the return value and what is stored
    in [status].  Without a matching child it fails (ECHILD); a matching
    zombie is reaped at once; otherwise the call returns 0 under WNOHANG
    and else sleeps until the first matching child terminates. *)
Definition waitpid (pid options : Z) : M (Z * option Z) := fun w =>
  let nohang := negb (Z.land options WNOHANG =? 0) in
  let candidates := filter (fun p => wait_matches w pid p = true) (children w) in
  match candidates with
  | [] => Ret (-1, None) (log [Ev_waitpid pid options (-1) None] w)
  | _ :: _ =>
      match first_exit candidates with
      | Some (t, p) =>
          if (t <=? now w)%nat then waited pid options (now w) p w
          else if nohang then Ret (0, None) (log [Ev_waitpid pid options 0 None] w)
          else waited pid options t p w
      | None =>
          if nohang then Ret (0, None) (log [Ev_waitpid pid options 0 None] w)
          else Hung w
      end
  end.

(** ** The shell *)

(** Modelled from the spec: the tokenizer [parse_shell_token] is declared
    in [sh61.h] and defined outside the sources.  A line is the sequence of
    tokens that successive calls return before the call that returns NULL;
    each is a TOKEN_ constant with the token's text, a string the tokenizer
    has allocated. *)
Record token := Token {
  tk_type : Z;
  tk_text : string
}.

Section Shell.

Context (E : machine).

(** What becomes of the process [fork] creates: the calls it makes, how
    long it lives and its exit status. *)
Record fate := Fate {
  f_events : list event;
  f_lifetime : option nat;
  f_status : Z
}.

(** [fork()], seen from the shell: the return value in the parent.  The
    child runs [child] on its own copy of the memory; [child] is [None] when
    it runs into undefined behaviour.  The calls of the child are recorded
    with the fork. *)
Definition fork (child : Z -> option fate) : M Z := fun w =>
  if (length (children w) <? rlimit_nproc E)%nat then
    let self := Z.pos (next_pid w) in
    match child self with
    | None => Fault w
    | Some f =>
        Ret self
            (World (now w) (Pos.succ (next_pid w))
                   (children w ++
                    [Proc self ((fun d => (now w + d)%nat) <$> f_lifetime f)
                          (f_status f)])
                   (cwd w) (sh_pgid w) (tty_pgid w) (ignored w)
                   (trace w ++ Ev_fork self :: f_events f))
    end
  else Ret (-1) (log [Ev_fork (-1)] w).

(** [chdir(path)] *)
Definition chdir (path : option string) : M Z := fun w =>
  match path with
  | None => Ret (-1) (log [Ev_chdir path (-1)] w)
  | Some p =>
      match resolve E (cwd w) p with
      | None => Ret (-1) (log [Ev_chdir path (-1)] w)
      | Some d =>
          Ret 0 (World (now w) (next_pid w) (children w) d (sh_pgid w)
                       (tty_pgid w) (ignored w) (trace w ++ [Ev_chdir path 0]))
      end
  end.

(** The branch [child_pid == 0] of [start_command]: what the child does
    after [fork] has returned 0 to it. *)
Definition start_command_child (c : command) (self : Z) : option fate :=
  let c := set_pid 0 c in
  match argv_at c 0, c_strings (argv c) with
  | Some (Some file), Some args =>
      match program E self file args with
      | Some (lifetime, status) =>
          Some (Fate [Ev_child_execvp self file args true] lifetime status)
      | None =>
          Some (Fate [Ev_child_execvp self file args false;
                      Ev_child_perror self "Execvp failed: ";
                      Ev_child_exit self EXIT_FAILURE]
                     (Some 0%nat) EXIT_FAILURE)
      end
  | _, _ => None
  end.

(** [start_command(c, pgid)], in the shell. *)
Definition start_command (c : command) (pgid : Z) : M Z :=
  match argv_at c 0 with
  | Some (Some arg0) =>
      if String.eqb arg0 BUILTIN_CD then
        match argv_at c 1 with
        | Some path =>
            r ← chdir path;
            if r =? -1 then
              _ ← perror "failed to change cwd: "; mret (-1)
            else mret 0
        | None => fault
        end
      else if String.eqb arg0 BUILTIN_EXIT then _exit EXIT_SUCCESS
      else
        child_pid ← fork (start_command_child c);
        if 0 <? child_pid then mret (pid c)
        else
          _ ← fprintf_stderr "Failed to fork, oh dear."; mret (-1)
  | _ => fault
  end.

(** [run_list(c)] *)
Fixpoint run_list (c : command) : M unit :=
  match c with
  | Command n _ _ b nx =>
      if n =? 0 then mret tt
      else
        child ← start_command c 42;
        _ ← (if b =? 0 then _ ← waitpid child 0; mret tt else mret tt);
        match nx with
        | None => mret tt
        | Some c' => run_list c'
        end
  end.

(** The body of the loop of [eval_line], but for its [waitpid]. *)
Definition eval_token (c1 : command) (t : token) : command :=
  let c1 :=
    if tk_type t =? TOKEN_NORMAL
    then at_current (fun current => command_append_arg current (tk_text t)) c1
    else c1 in
  let c1 :=
    if tk_type t =? TOKEN_BACKGROUND
    then at_current (set_background 1) c1
    else c1 in
  if (tk_type t =? TOKEN_SEQUENCE) || (tk_type t =? TOKEN_BACKGROUND)
  then at_current (set_next (Some command_alloc)) c1
  else c1.

(** The loop of [eval_line]: it builds the command list. *)
Fixpoint eval_tokens (s : list token) (c1 : command) : M command :=
  match s with
  | [] => mret c1
  | t :: s' =>
      let c1 := eval_token c1 t in
      _ ← waitpid (-1) WNOHANG;
      eval_tokens s' c1
  end.

(** [eval_line(s)]; memory is not modelled, so [command_free] is no step. *)
Definition eval_line (s : list token) : M unit :=
  c1 ← eval_tokens s command_alloc;
  if argc c1 =? 0 then mret tt else run_list c1.

(** The loop of [main] on an input that every read finds to be one
    complete line; a line arrives some time after the prompt.  At the end
    of the input the loop prompts once more, the read finds nothing and
    the loop ends.  ([read_loop] below is the loop on any input.) *)
Fixpoint main_loop (quiet : bool) (input : list (nat * list token)) : M unit :=
  match input with
  | [] => if quiet then mret tt else fun w => emit (Ev_prompt (cwd w)) w
  | (delay, s) :: input' =>
      _ ← (if quiet then mret tt else fun w => emit (Ev_prompt (cwd w)) w);
      _ ← elapse delay;
      _ ← eval_line s;
      _ ← waitpid (-1) WNOHANG;
      main_loop quiet input'
  end.

(** [main], reading [input] from stdin. *)
Definition main (quiet : bool) (input : list (nat * list token)) : M Z :=
  _ ← set_foreground 0;
  _ ← handle_signal_ign SIGTTOU;
  _ ← main_loop quiet input;
  mret 0.

End Shell.

(** ** The command list as a sequence *)

(** Induction along [next]. *)
Fixpoint command_ind (P : command -> Prop)
    (Hlast : forall n a p b, P (Command n a p b None))
    (Hnext : forall n a p b c, P c -> P (Command n a p b (Some c)))
    (c : command) : P c :=
  match c with
  | Command n a p b None => Hlast n a p b
  | Command n a p b (Some c') =>
      Hnext n a p b c' (command_ind P Hlast Hnext c')
  end.

(** The list whose commands are [pre] and then the list [last]. *)
Fixpoint link (pre : list command) (last : command) : command :=
  match pre with
  | [] => last
  | c :: pre' => set_next (Some (link pre' last)) c
  end.

(** The command with the arguments [ws] as [command_alloc] and
    [command_append_arg] leave it: no process, foreground, no successor. *)
Definition command_of (ws : list string) : command :=
  match ws with
  | [] => command_alloc
  | _ :: _ =>
      Command (Z.of_nat (length ws)) ((Ptr ∘ Some <$> ws) ++ [Ptr NULL])
              (-1) 0 None
  end.

(** [eval_token] on a list given as the commands before [current], and
    [current]. *)
Definition eval_token_at (st : list command * command) (t : token)
  : list command * command :=
  let cur := snd st in
  let cur :=
    if tk_type t =? TOKEN_NORMAL then command_append_arg cur (tk_text t)
    else cur in
  let cur :=
    if tk_type t =? TOKEN_BACKGROUND then set_background 1 cur else cur in
  if (tk_type t =? TOKEN_SEQUENCE) || (tk_type t =? TOKEN_BACKGROUND)
  then (fst st ++ [cur], command_alloc)
  else (fst st, cur).

(** The list [eval_line] has built when its loop ends. *)
Definition build (s : list token) (c1 : command) : command :=
  fold_left eval_token s c1.

(** [n] calls of [waitpid(-1, 0, WNOHANG)] in a row. *)
Fixpoint polls (n : nat) : M unit :=
  match n with
  | O => mret tt
  | S n' => _ ← waitpid (-1) WNOHANG; polls n'
  end.

(** [run_list] on the sequence of the commands of a list. *)
Fixpoint run_nodes (E : machine) (l : list command) : M unit :=
  match l with
  | [] => mret tt
  | c :: l' =>
      if argc c =? 0 then mret tt
      else
        child ← start_command E c 42;
        _ ← (if background c =? 0 then _ ← waitpid child 0; mret tt
             else mret tt);
        run_nodes E l'
  end.

(** The world an outcome leaves. *)
Definition world_of {A} (o : outcome A) : world :=
  match o with
  | Ret _ w | Exited _ w | Hung w | Fault w => w
  end.

(** A word token. *)
Definition word (text : string) : token := Token TOKEN_NORMAL text.

(** Every command of the list is [command_of] its words, up to the
    [background] flag and the successor. *)
Definition shaped (c : command) : Prop :=
  exists ws b, set_next None c = set_background b (command_of ws).

(** The tokens after which [eval_line] opens a new command. *)
Definition ends_command (t : token) : bool :=
  (tk_type t =? TOKEN_SEQUENCE) || (tk_type t =? TOKEN_BACKGROUND).

(** The texts of the word tokens of a line, in order. *)
Definition words_of (s : list token) : list string :=
  tk_text <$> filter (fun t => tk_type t = TOKEN_NORMAL) s.

(** The token of [;]. *)
Definition semi : token := Token TOKEN_SEQUENCE ";".

(** The line [cmd1 ; cmd2 ; ... ; cmdN], with or without a [;] at its end. *)
Fixpoint seq_line (cmds : list (list string)) (trailing : bool) : list token :=
  match cmds with
  | [] => []
  | [ws] => (word <$> ws) ++ (if trailing then [semi] else [])
  | ws :: cmds' => (word <$> ws) ++ semi :: seq_line cmds' trailing
  end.

(** The line [stage1 | stage2 | ... | stageN]. *)
Fixpoint pipe_line (stages : list (list string)) : list token :=
  match stages with
  | [] => []
  | [ws] => word <$> ws
  | ws :: stages' => (word <$> ws) ++ Token TOKEN_PIPE "|" :: pipe_line stages'
  end.

(** What [run_list] does with foreground commands of a word at least:
    [start_command] on each in the order written and, after each, a
    blocking [waitpid] on the value [start_command] has returned, with no
    test of any status.  That value is -1 or 0 and never the process ID of
    the command just started, so the wait is for any child of the shell. *)
Fixpoint in_sequence (E : machine) (cs : list command) : M unit :=
  match cs with
  | [] => mret tt
  | c :: cs' =>
      child ← start_command E c 42;
      _ ← waitpid child 0;
      in_sequence E cs'
  end.

(** The calls of [set_foreground] among the events. *)
Definition is_set_foreground (e : event) : bool :=
  match e with
  | Ev_set_foreground _ => true
  | _ => false
  end.

(** A computation that leaves the terminal alone: whatever its outcome, the
    foreground process group and the shell's own group are as before and
    [set_foreground] has not been called. *)
Definition keeps_terminal {A} (m : M A) : Prop :=
  forall w,
    tty_pgid (world_of (m w)) = tty_pgid w /\
    sh_pgid (world_of (m w)) = sh_pgid w /\
    exists new,
      trace (world_of (m w)) = trace w ++ new /\
      Forall (fun e => is_set_foreground e = false) new.

(** ** A machine and a world to run examples in *)

(** [sleep] runs for 5 ticks, [echo] for 1, [yes] for ever; [true] and
    [false] terminate at once with status 0 and 1; nothing else is
    installed.  The only directory [chdir] reaches is the root. *)
Definition a_machine : machine :=
  Machine
    (fun _ file _ =>
       if String.eqb file "sleep" then Some (Some 5%nat, 0)
       else if String.eqb file "echo" then Some (Some 1%nat, 0)
       else if String.eqb file "yes" then Some (None, 0)
       else if String.eqb file "true" then Some (Some 0%nat, 0)
       else if String.eqb file "false" then Some (Some 0%nat, 1)
       else None)
    (fun _ path => if String.eqb path "/" then Some "/"%string else None)
    16.

(** A shell of process group 50 with no children, at time 0, in [/home]. *)
Definition a_world : world :=
  World 0 100 [] "/home" 50 50 [] [].

(** ** How a computation ends *)

Inductive ending :=
| Returns
| Exits (status : Z)
| Hangs
| Faults.

Definition ending_of {A} (o : outcome A) : ending :=
  match o with
  | Ret _ _ => Returns
  | Exited st _ => Exits st
  | Hung _ => Hangs
  | Fault _ => Faults
  end.

(** [m] takes every world to one related by [R] and ends in a way [ok]
    accepts. *)
Definition within {A} (R : world -> world -> Prop) (ok : ending -> bool)
    (m : M A) : Prop :=
  forall w, R w (world_of (m w)) /\ ok (ending_of (m w)) = true.

(** The endings of a shell that is well behaved: it returns, it leaves
    through [exit] with status 0, or it sleeps in [waitpid]. *)
Definition sound_ending (e : ending) : bool :=
  match e with
  | Returns | Hangs => true
  | Exits st => st =? 0
  | Faults => false
  end.

(** The endings of a computation that does not sleep. *)
Definition prompt_ending (e : ending) : bool :=
  match e with
  | Returns | Exits _ => true
  | Hangs | Faults => false
  end.

Definition any_world (w w' : world) : Prop := True.

Definition same_time (w w' : world) : Prop := now w' = now w.

(** A child that has not terminated at time [t]. *)
Definition alive (t : nat) (p : proc) : bool :=
  match p_exit_at p with
  | Some d => (t <? d)%nat
  | None => true
  end.

(** The token of [&]. *)
Definition amp : token := Token TOKEN_BACKGROUND "&".

(** The line of the commands [cmds], each followed by [&] (flag [true]) or
    by [;], and then the words [last]. *)
Fixpoint line_of (cmds : list (list string * bool)) (last : list string)
  : list token :=
  match cmds with
  | [] => word <$> last
  | (ws, bg) :: cmds' =>
      (word <$> ws) ++ (if bg then amp else semi) :: line_of cmds' last
  end.

(** The command [eval_line] builds for the words [ws] followed by [&]
    (flag [true]) or by [;]. *)
Definition command_with (c : list string * bool) : command :=
  set_background (if c.2 then 1 else 0) (command_of c.1).

(** The tokens [eval_line] acts upon: words, [;] and [&]. *)
Definition acted_upon (t : token) : bool :=
  (tk_type t =? TOKEN_NORMAL) || ends_command t.



(** ** The read loop of [main] *)

(** [<stdio.h>] as glibc defines it. *)
Definition BUFSIZ : nat := Z.to_nat 8192.
Definition newline : ascii := "010"%char.
Definition NUL : ascii := "000"%char.

(** What the command file hands to the reads, in order: a character, or a
    read that fails, with EINTR or with another error. *)
Inductive input :=
| Byte (a : ascii)
| Interrupted
| Broken.

(** At most [n] characters from the stream, up to and with the first
    newline; the flag tells that the read has stopped for the newline or
    for the count, and not for the end of the stream or a failing read. *)
Fixpoint gets (n : nat) (st : list input) : list ascii * list input * bool :=
  match n with
  | O => ([], st, true)
  | S n' =>
      match st with
      | Byte a :: st' =>
          if Ascii.eqb a newline then ([a], st', true)
          else let '(l, r, full) := gets n' st' in (a :: l, r, full)
      | _ => ([], st, false)
      end
  end.

(** What [fgets] returns: the buffer, with the characters stored before
    the NUL, or NULL: at the end of the file with no character read, or
    after a read that has failed, with EINTR or with another error. *)
Inductive fgets_result :=
| Got (chars : list ascii)
| Null_eof
| Null_eintr
| Null_error.

(** [fgets(buf, size, f)]: the result, what is left of the stream, and
    whether the end-of-file indicator of [f] is set by the call.  A read
    that fails makes [fgets] return NULL also when characters have been
    stored by the same call: they are taken from the stream and the array
    is left indeterminate.  The last case is not reached: [gets] stops
    before a character for the count only ([gets_stops]). *)
Definition fgets (size : nat) (st : list input)
  : fgets_result * list input * bool :=
  match st with
  | [] => (Null_eof, [], true)
  | Interrupted :: st' => (Null_eintr, st', false)
  | Broken :: st' => (Null_error, st', false)
  | Byte _ :: _ =>
      let '(chars, rest, full) := gets (size - 1) st in
      if full then (Got chars, rest, false)
      else match rest with
           | [] => (Got chars, [], true)
           | Interrupted :: rest' => (Null_eintr, rest', false)
           | Broken :: rest' => (Null_error, rest', false)
           | Byte _ :: _ => (Got chars, rest, false)
           end
  end.

(** The C string that starts an array of characters: [strlen] counts up
    to the first NUL. *)
Fixpoint c_str (l : list ascii) : list ascii :=
  match l with
  | [] => []
  | a :: l' => if Ascii.eqb a NUL then [] else a :: c_str l'
  end.

(** [bufpos == BUFSIZ - 1 || (bufpos > 0 && buf[bufpos - 1] == '\n')],
    where [bufpos = strlen(buf)]. *)
Definition complete (buf : list ascii) : bool :=
  (length buf =? BUFSIZ - 1)%nat ||
  match last buf with
  | Some a => Ascii.eqb a newline
  | None => false
  end.

(** The reading part of one turn of the loop: the loop ends (after an
    error, or at the end of the file), or [fgets] is given no room in the
    array, or the buffer holds a string and the stream goes on. *)
Inductive reading :=
| Read_stop (error : bool)
| Read_undefined
| Read_next (st : list input) (eof : bool) (buf : list ascii).

(** [fgets(&buf[bufpos], BUFSIZ - bufpos, command_file)] on the string
    [buf] of length [bufpos], then the tests of its result and
    [strlen(buf)].  After EINTR the loop stores a NUL at [buf[bufpos]]:
    the string is [buf] again, and what the failed call has stored is
    lost.  A string of [BUFSIZ] characters does not fit the array: the
    loop never holds one ([read_into_room]). *)
Definition read_into (buf : list ascii) (st : list input) : reading :=
  if (BUFSIZ <=? length buf)%nat then Read_undefined
  else
    match fgets (BUFSIZ - length buf) st with
    | (Got chars, st', eof) => Read_next st' eof (c_str (buf ++ chars))
    | (Null_eintr, st', _) => Read_next st' false (c_str buf)
    | (Null_eof, _, _) => Read_stop false
    | (Null_error, _, _) => Read_stop true
    end.

(** [getcwd] and the prompt, printed when [needprompt && !quiet]. *)
Definition show_prompt (needprompt quiet : bool) : M unit := fun w =>
  if needprompt && negb quiet then emit (Ev_prompt (cwd w)) w else Ret tt w.

(** What decreases from one turn of the loop to the next. *)
Definition read_measure (st : list input) (buf : list ascii) : nat :=
  2 * length st + (if (length buf <? BUFSIZ - 1)%nat then 0 else 1).

Lemma gets_spec n st :
  (length (gets n st).1.1 <= n)%nat /\
  length st = (length (gets n st).1.1 + length (gets n st).1.2)%nat.
Proof.
  revert st. induction n as [|n IH]; intros st; simpl; [lia|].
  destruct st as [|[a| |] st]; simpl; try lia.
  destruct (Ascii.eqb a newline); simpl; [lia|].
  specialize (IH st). destruct (gets n st) as [[l r] full]. simpl in *. lia.
Qed.

Lemma c_str_length l : (length (c_str l) <= length l)%nat.
Proof.
  induction l as [|a l IH]; simpl; [lia|].
  destruct (Ascii.eqb a NUL); simpl; lia.
Qed.

Lemma BUFSIZ_large : (2 <= BUFSIZ)%nat.
Proof. unfold BUFSIZ. lia. Qed.

Lemma read_into_decreases buf st st' eof buf' :
  read_into buf st = Read_next st' eof buf' ->
  (read_measure st' [] < read_measure st buf)%nat /\
  (complete buf' = false -> read_measure st' buf' < read_measure st buf)%nat.
Proof.
  unfold read_into, read_measure, complete.
  pose proof BUFSIZ_large as HB.
  destruct (BUFSIZ <=? length buf)%nat eqn:Hsz; [discriminate|].
  apply Nat.leb_gt in Hsz.
  replace (length (@nil ascii) <? BUFSIZ - 1)%nat with true
    by (symmetry; apply Nat.ltb_lt; simpl; lia).
  unfold fgets. destruct st as [|[a| |] st].
  - discriminate.
  - pose proof (gets_spec (BUFSIZ - length buf - 1) (Byte a :: st)) as [Hn Hl].
    destruct (gets (BUFSIZ - length buf - 1) (Byte a :: st)) as [[chars rest] full] eqn:Hg.
    simpl in Hn, Hl.
    assert (Hbuf : (length (c_str (buf ++ chars)) <= length buf + length chars)%nat).
    { pose proof (c_str_length (buf ++ chars)). rewrite length_app in *. lia. }
    assert (Hpos : (length buf < BUFSIZ - 1 -> 0 < length chars)%nat).
    { intros Hlt. destruct (BUFSIZ - length buf - 1)%nat as [|k] eqn:Hk; [lia|].
      simpl in Hg. destruct (Ascii.eqb a newline).
      - injection Hg as <- _ _. simpl. lia.
      - destruct (gets k st) as [[l r] f]. injection Hg as <- _ _. simpl. lia. }
    assert (Hgoal : forall st1 buf1, st1 = rest -> buf1 = c_str (buf ++ chars) ->
      (2 * length st1 + 0 <
        2 * length (Byte a :: st) + (if (length buf <? BUFSIZ - 1)%nat then 0 else 1))%nat /\
      ((length buf1 =? BUFSIZ - 1)%nat ||
         match last buf1 with Some a0 => Ascii.eqb a0 newline | None => false end = false ->
       (2 * length st1 + (if (length buf1 <? BUFSIZ - 1)%nat then 0 else 1) <
        2 * length (Byte a :: st) + (if (length buf <? BUFSIZ - 1)%nat then 0 else 1))%nat)).
    { intros st1 buf1 -> ->. simpl length.
      destruct (length buf <? BUFSIZ - 1)%nat eqn:Hlt.
      - apply Nat.ltb_lt in Hlt. specialize (Hpos Hlt). split; [lia|].
        intros Hc. apply orb_false_iff in Hc as [Hc _]. apply Nat.eqb_neq in Hc.
        replace (length (c_str (buf ++ chars)) <? BUFSIZ - 1)%nat with true
          by (symmetry; apply Nat.ltb_lt; lia). lia.
      - apply Nat.ltb_ge in Hlt. split; [lia|].
        intros Hc. apply orb_false_iff in Hc as [Hc _]. apply Nat.eqb_neq in Hc.
        replace (length (c_str (buf ++ chars)) <? BUFSIZ - 1)%nat with true
          by (symmetry; apply Nat.ltb_lt; lia). lia. }
    assert (Hfail : forall st1 buf1 rest', rest = Interrupted :: rest' ->
      st1 = rest' -> buf1 = c_str buf ->
      (2 * length st1 + 0 <
        2 * length (Byte a :: st) + (if (length buf <? BUFSIZ - 1)%nat then 0 else 1))%nat /\
      ((length buf1 =? BUFSIZ - 1)%nat ||
         match last buf1 with Some a0 => Ascii.eqb a0 newline | None => false end = false ->
       (2 * length st1 + (if (length buf1 <? BUFSIZ - 1)%nat then 0 else 1) <
        2 * length (Byte a :: st) + (if (length buf <? BUFSIZ - 1)%nat then 0 else 1))%nat)).
    { intros st1 buf1 rest' -> -> ->. simpl length in *.
      pose proof (c_str_length buf). split; [lia|].
      intros Hc. apply orb_false_iff in Hc as [Hc _]. apply Nat.eqb_neq in Hc.
      replace (length (c_str buf) <? BUFSIZ - 1)%nat with true
        by (symmetry; apply Nat.ltb_lt; lia). lia. }
    destruct full.
    + intros [= <- <- <-]. now apply Hgoal.
    + destruct rest as [|[b| |] rest'].
      * intros [= <- <- <-]. now apply Hgoal.
      * intros [= <- <- <-]. now apply Hgoal.
      * intros [= <- <- <-]. now apply (Hfail _ _ rest').
      * discriminate.
  - intros [= <- <- <-]. simpl length. pose proof (c_str_length buf).
    split; [destruct (length buf <? BUFSIZ - 1)%nat; lia|].
    intros Hc. apply orb_false_iff in Hc as [Hc _]. apply Nat.eqb_neq in Hc.
    replace (length (c_str buf) <? BUFSIZ - 1)%nat with true
      by (symmetry; apply Nat.ltb_lt; lia).
    destruct (length buf <? BUFSIZ - 1)%nat; lia.
  - discriminate.
Qed.

(** The loop of [main], from [while (!feof(command_file))] to the
    [return 0] after it: [ev] stands for [eval_line], [st] is what is left
    of the command file and [eof] its end-of-file indicator, [buf] the
    string in the buffer.  The input is there to be read: reading takes
    no time. *)
Equations? read_loop (ev : list ascii -> M unit) (quiet : bool)
    (st : list input) (eof : bool) (buf : list ascii) (needprompt : bool)
  : M Z by wf (read_measure st buf) lt :=
  read_loop ev quiet st true buf needprompt := mret 0;
  read_loop ev quiet st false buf needprompt
    with inspect (read_into buf st) => {
    | exist _ (Read_stop error) _ :=
        _ ← show_prompt needprompt quiet;
        _ ← (if error then perror "sh61" else mret tt);
        mret 0;
    | exist _ Read_undefined _ :=
        _ ← show_prompt needprompt quiet;
        fault;
    | exist _ (Read_next st' eof' buf') Hread
        with inspect (complete buf') => {
        | exist _ true _ :=
            _ ← show_prompt needprompt quiet;
            _ ← ev buf';
            _ ← waitpid (-1) WNOHANG;
            read_loop ev quiet st' eof' [] true;
        | exist _ false Hc :=
            _ ← show_prompt needprompt quiet;
            _ ← waitpid (-1) WNOHANG;
            read_loop ev quiet st' eof' buf' (needprompt && quiet) } }.
Proof.
  - apply (read_into_decreases buf st st' eof' buf'). exact Hread.
  - apply (read_into_decreases buf st st' eof' buf'); [exact Hread|exact Hc].
Qed.

(** [exit(status)] *)
Definition exit {A} (status : Z) : M A := _exit status.

(** [main(argc, argv)].  The tokenizer is a parameter, [files] tells what
    [fopen] finds under a name, [stdin] is the standard input. *)
Definition main_of (E : machine) (tokenize : list ascii -> list token)
    (files : string -> option (list input)) (stdin : list input)
    (argv : list string) : M Z :=
  let quiet :=
    match argv !! 1%nat with
    | Some arg => String.eqb arg "-q"
    | None => false
    end in
  let argv := if quiet then drop 1 argv else argv in
  let shell (command_file : list input) : M Z :=
    _ ← set_foreground 0;
    _ ← handle_signal_ign SIGTTOU;
    read_loop (fun s => eval_line E (tokenize s)) quiet command_file
              false [] true in
  match argv !! 1%nat with
  | Some name =>
      match files name with
      | Some command_file => shell command_file
      | None => _ ← perror name; exit 1
      end
  | None => shell stdin
  end.

(** What a loop over the lines of a script is to do: prompt, evaluate the
    line with its newline, poll, and so on to the end [fin]. *)
Fixpoint run_lines (ev : list ascii -> M unit) (quiet : bool)
    (lines : list (list ascii)) (fin : M Z) : M Z :=
  match lines with
  | [] => fin
  | l :: lines' =>
      _ ← show_prompt true quiet;
      _ ← ev (l ++ [newline]);
      _ ← waitpid (-1) WNOHANG;
      run_lines ev quiet lines' fin
  end.

(** The characters of a line as the stream delivers them. *)
Definition stream_of (lines : list (list ascii)) : list input :=
  Byte <$> concat ((fun l => l ++ [newline]) <$> lines).

(** A line that fits the buffer with its newline and holds neither a
    newline nor a NUL. *)
Definition plain (l : list ascii) : Prop :=
  (length l + 1 < BUFSIZ)%nat /\
  Forall (fun a => a ≠ newline /\ a ≠ NUL) l.

(** The events [m] adds to the trace all satisfy [P]. *)
Definition emits {A} (P : event -> bool) (m : M A) : Prop :=
  forall w, exists new,
    trace (world_of (m w)) = trace w ++ new /\
    Forall (fun e => P e = true) new.

Definition is_prompt (e : event) : bool :=
  match e with
  | Ev_prompt _ => true
  | _ => false
  end.

(** The outcomes of a [main] that is well behaved: it returns 0, it
    leaves with status 0, or it sleeps in [waitpid]. *)
Definition ends_with_0 (o : outcome Z) : Prop :=
  match o with
  | Ret r _ => r = 0
  | Exited st _ => st = 0
  | Hung _ => True
  | Fault _ => False
  end.

(** The events of running commands: every event but the prompt and the
    calls that set up the terminal and the signals. *)
Definition command_event (e : event) : bool :=
  match e with
  | Ev_prompt _ | Ev_set_foreground _ | Ev_handle_signal _ => false
  | _ => true
  end.

(** ** Lemmas on the monad *)

Lemma bind_ext {A B} (m : M A) (f g : A -> M B) (w : world) :
  (forall a w', f a w' = g a w') -> (m ≫= f) w = (m ≫= g) w.
Proof.
  intros Hfg. unfold mbind, M_bind. destruct (m w); auto.
Qed.

Lemma bind_assoc {A B C} (m : M A) (f : A -> M B) (g : B -> M C) (w : world) :
  ((m ≫= f) ≫= g) w = (m ≫= (fun a => f a ≫= g)) w.
Proof.
  unfold mbind, M_bind. destruct (m w); auto.
Qed.

Lemma bind_ret_eq {A B} (m : M A) (f : A -> M B) (a : A) (w w' : world) :
  m w = Ret a w' -> (m ≫= f) w = f a w'.
Proof. intros H. unfold mbind, M_bind. now rewrite H. Qed.

(** ** Lemmas on the list structure *)

Lemma link_snoc pre c last :
  link (pre ++ [c]) last = link pre (set_next (Some last) c).
Proof.
  induction pre as [|d pre IH]; simpl; [reflexivity|]. now rewrite IH.
Qed.

Lemma at_current_link f pre last :
  next last = None -> at_current f (link pre last) = link pre (f last).
Proof.
  intros Hlast. induction pre as [|c pre IH]; simpl.
  - destruct last as [n a p b nx]. simpl in Hlast. subst nx. reflexivity.
  - destruct c as [n a p b nx]. unfold set_next. simpl. now rewrite IH.
Qed.

Lemma eval_token_link pre cur t :
  next cur = None ->
  eval_token (link pre cur) t =
    link (fst (eval_token_at (pre, cur) t)) (snd (eval_token_at (pre, cur) t))
  /\ next (snd (eval_token_at (pre, cur) t)) = None.
Proof.
  intros Hcur. unfold eval_token, eval_token_at. simpl fst. simpl snd.
  set (cur1 := if tk_type t =? TOKEN_NORMAL
               then command_append_arg cur (tk_text t) else cur).
  assert (H1 : (if tk_type t =? TOKEN_NORMAL
                then at_current (fun current =>
                       command_append_arg current (tk_text t)) (link pre cur)
                else link pre cur) = link pre cur1 /\ next cur1 = None).
  { subst cur1. destruct (tk_type t =? TOKEN_NORMAL).
    - now rewrite at_current_link.
    - auto. }
  destruct H1 as [-> Hcur1].
  set (cur2 := if tk_type t =? TOKEN_BACKGROUND
               then set_background 1 cur1 else cur1).
  assert (H2 : (if tk_type t =? TOKEN_BACKGROUND
                then at_current (set_background 1) (link pre cur1)
                else link pre cur1) = link pre cur2 /\ next cur2 = None).
  { subst cur2. destruct (tk_type t =? TOKEN_BACKGROUND).
    - now rewrite at_current_link.
    - auto. }
  destruct H2 as [-> Hcur2].
  destruct ((tk_type t =? TOKEN_SEQUENCE) || (tk_type t =? TOKEN_BACKGROUND)).
  - simpl. rewrite at_current_link by assumption.
    now rewrite link_snoc.
  - simpl. auto.
Qed.

Lemma build_link s pre cur :
  next cur = None ->
  build s (link pre cur) =
    link (fst (fold_left eval_token_at s (pre, cur)))
         (snd (fold_left eval_token_at s (pre, cur)))
  /\ next (snd (fold_left eval_token_at s (pre, cur))) = None.
Proof.
  revert pre cur. induction s as [|t s IH]; intros pre cur Hcur.
  - simpl. auto.
  - unfold build. simpl.
    destruct (eval_token_link pre cur t Hcur) as [-> Hn].
    destruct (eval_token_at (pre, cur) t) as [pre' cur'] eqn:Et.
    simpl in *. apply IH. assumption.
Qed.

Lemma command_append_arg_cells (vs : list string) word :
  <[S (length vs) := Ptr NULL]>
    (<[length vs := Ptr (Some word)]>
       (realloc ((Ptr ∘ Some <$> vs) ++ [Ptr NULL]) (S (S (length vs)))))
  = (Ptr ∘ Some <$> vs ++ [word]) ++ [Ptr NULL].
Proof.
  assert (Hn : length (Ptr ∘ Some <$> vs) = length vs)
    by apply length_fmap.
  unfold realloc. rewrite length_app, Hn. simpl length.
  rewrite take_ge by (rewrite length_app, Hn; simpl; lia).
  replace (S (S (length vs)) - (length vs + 1))%nat with 1%nat by lia.
  simpl replicate. rewrite <- (assoc_L (++)). simpl.
  rewrite insert_app_r_alt by lia.
  rewrite Hn, Nat.sub_diag. simpl.
  rewrite insert_app_r_alt by lia.
  rewrite Hn. replace (S (length vs) - length vs)%nat with 1%nat by lia.
  simpl. rewrite fmap_app. simpl. now rewrite <- (assoc_L (++)).
Qed.

Lemma command_append_arg_of ws word :
  command_append_arg (command_of ws) word = command_of (ws ++ [word]).
Proof.
  destruct ws as [|v ws].
  - reflexivity.
  - change (command_of ((v :: ws) ++ [word]))
      with (Command (Z.of_nat (length ((v :: ws) ++ [word])))
              ((Ptr ∘ Some <$> (v :: ws) ++ [word]) ++ [Ptr NULL]) (-1) 0 None).
    unfold command_of.
    generalize (v :: ws). intros vs.
    unfold command_append_arg, set_argc, set_argv;
      cbn [argc argv pid background next].
    f_equal.
    + rewrite length_app. simpl. lia.
    + replace (Z.to_nat (Z.of_nat (length vs) + 2))
        with (S (S (length vs))) by lia.
      replace (Z.to_nat (Z.of_nat (length vs) + 1))
        with (S (length vs)) by lia.
      rewrite Nat2Z.id. apply command_append_arg_cells.
Qed.

Lemma eval_words_at ws pre vs :
  fold_left eval_token_at (word <$> ws) (pre, command_of vs)
  = (pre, command_of (vs ++ ws)).
Proof.
  revert vs. induction ws as [|w ws IH]; intros vs; simpl.
  - now rewrite app_nil_r.
  - unfold eval_token_at at 2. simpl.
    rewrite command_append_arg_of, IH.
    now rewrite <- (assoc_L (++)).
Qed.

(** ** Lemmas on the calls *)

Lemma waitpid_nohang pid w :
  exists r w', waitpid pid WNOHANG w = Ret r w'.
Proof.
  unfold waitpid. change (Z.land WNOHANG WNOHANG =? 0) with false. simpl negb.
  destruct (filter _ (children w)) as [|c0 cs]; [eauto|].
  destruct (first_exit _) as [[t q]|]; [|eauto].
  destruct (t <=? now w)%nat; unfold waited; eauto.
Qed.

Lemma start_command_set_next E x c pgid w :
  start_command E (set_next x c) pgid w = start_command E c pgid w.
Proof. destruct c. reflexivity. Qed.

Lemma run_list_link E pre last w :
  next last = None ->
  run_list E (link pre last) w = run_nodes E (pre ++ [last]) w.
Proof.
  intros Hlast. revert w. induction pre as [|c pre IH]; intros w; simpl.
  - destruct last as [n a p b nx]. simpl in Hlast. subst nx. simpl.
    destruct (n =? 0); [reflexivity|].
    apply bind_ext. intros child w1. apply bind_ext. reflexivity.
  - destruct c as [n a p b nx]. simpl.
    destruct (n =? 0); [reflexivity|].
    apply bind_ext. intros child w1. apply bind_ext. intros _ w2. apply IH.
Qed.

Lemma eval_tokens_build s c1 w :
  eval_tokens s c1 w = (_ ← polls (length s); mret (build s c1)) w.
Proof.
  revert c1 w. induction s as [|t s IH]; intros c1 w.
  - reflexivity.
  - cbn [eval_tokens length polls]. rewrite bind_assoc.
    apply bind_ext. intros _ w'. apply IH.
Qed.

Lemma eval_line_build E s w :
  eval_line E s w =
    (_ ← polls (length s);
     if argc (build s command_alloc) =? 0 then mret tt
     else run_list E (build s command_alloc)) w.
Proof.
  unfold eval_line.
  unfold mbind at 1. unfold M_bind at 1.
  rewrite eval_tokens_build.
  unfold mbind, M_bind.
  destruct (polls (length s) w); reflexivity.
Qed.

(** ** What [eval_line] builds *)

Lemma shaped_alloc : shaped command_alloc.
Proof. exists [], 0. reflexivity. Qed.

Lemma shaped_append c w : shaped c -> shaped (command_append_arg c w).
Proof.
  intros (ws & b & H). exists (ws ++ [w]), b.
  rewrite <- command_append_arg_of.
  destruct c as [n a p b' nx]. unfold set_next in H. simpl in H.
  destruct (command_of ws) as [n0 a0 p0 b0 nx0].
  unfold set_background in H. simpl in H. injection H as -> -> -> -> <-.
  reflexivity.
Qed.

Lemma shaped_background c b : shaped c -> shaped (set_background b c).
Proof.
  intros (ws & b0 & H). exists ws, b.
  destruct c as [n a p b' nx]. unfold set_next in H. simpl in H.
  destruct (command_of ws) as [n0 a0 p0 b1 nx0].
  unfold set_background in H. simpl in H. injection H as -> -> -> -> <-.
  reflexivity.
Qed.

Lemma eval_token_at_shaped pre cur t :
  Forall shaped pre -> shaped cur ->
  Forall shaped (fst (eval_token_at (pre, cur) t))
  /\ shaped (snd (eval_token_at (pre, cur) t)).
Proof.
  intros Hpre Hcur. unfold eval_token_at. simpl fst. simpl snd.
  set (cur1 := if tk_type t =? TOKEN_NORMAL
               then command_append_arg cur (tk_text t) else cur).
  assert (H1 : shaped cur1).
  { subst cur1. destruct (tk_type t =? TOKEN_NORMAL);
      auto using shaped_append. }
  set (cur2 := if tk_type t =? TOKEN_BACKGROUND
               then set_background 1 cur1 else cur1).
  assert (H2 : shaped cur2).
  { subst cur2. destruct (tk_type t =? TOKEN_BACKGROUND);
      auto using shaped_background. }
  destruct ((tk_type t =? TOKEN_SEQUENCE) || (tk_type t =? TOKEN_BACKGROUND));
    simpl; split; auto using shaped_alloc.
  apply Forall_app. split; auto.
Qed.

Lemma eval_tokens_at_shaped s pre cur :
  Forall shaped pre -> shaped cur ->
  Forall shaped (fst (fold_left eval_token_at s (pre, cur)))
  /\ shaped (snd (fold_left eval_token_at s (pre, cur))).
Proof.
  revert pre cur. induction s as [|t s IH]; intros pre cur Hpre Hcur.
  - simpl. auto.
  - simpl. destruct (eval_token_at_shaped pre cur t Hpre Hcur) as [H1 H2].
    destruct (eval_token_at (pre, cur) t) as [pre' cur']. auto.
Qed.

Lemma shaped_set_next x c : shaped c -> shaped (set_next x c).
Proof. intros (ws & b & H). exists ws, b. destruct c. exact H. Qed.

Lemma nodes_link_shaped pre last :
  next last = None -> Forall shaped pre -> shaped last ->
  Forall shaped (nodes (link pre last)).
Proof.
  intros Hlast Hpre Hl. induction Hpre as [|c pre Hc Hpre IH]; simpl.
  - destruct last as [n a p b nx]. simpl in Hlast. subst nx.
    simpl. constructor; [assumption|constructor].
  - destruct c as [n a p b nx]. simpl.
    constructor; [|exact IH].
    apply (shaped_set_next (Some (link pre last))) in Hc. exact Hc.
Qed.

Lemma build_shaped s : Forall shaped (nodes (build s command_alloc)).
Proof.
  destruct (build_link s [] command_alloc eq_refl) as [Hb Hn].
  simpl in Hb. rewrite Hb.
  destruct (eval_tokens_at_shaped s [] command_alloc) as [H1 H2];
    auto using shaped_alloc.
  apply nodes_link_shaped; assumption.
Qed.

Lemma c_strings_words ws :
  c_strings ((Ptr ∘ Some <$> ws) ++ [Ptr NULL]) = Some ws.
Proof.
  induction ws as [|w ws IH]; [reflexivity|].
  rewrite fmap_cons. change ((Ptr ∘ Some) w) with (Ptr (Some w)).
  cbn [app c_strings]. now rewrite IH.
Qed.

Lemma shaped_fields c :
  shaped c ->
  pid c = -1 /\
  (argc c = 0 /\ argv c = [] \/
   exists w ws, argc c = Z.of_nat (length (w :: ws)) /\
     argv c = (Ptr ∘ Some <$> w :: ws) ++ [Ptr NULL]).
Proof.
  intros (ws & b & H). destruct c as [n a p b' nx].
  unfold set_next in H. simpl in H.
  destruct ws as [|w ws]; unfold command_of, command_alloc, set_background in H;
    simpl in H; injection H as -> -> -> ->; simpl; split; auto.
  right. exists w, ws. auto.
Qed.

(** C10: whatever the line, the loop of [eval_line] returns a command list,
    and every command of it with [argc > 0] has an [argv] array of exactly
    [argc] non-null strings followed by NULL at index [argc]; [execvp] reads
    it as those [argc] strings. *)
Theorem eval_line_argv_invariant (s : list token) (w : world) :
  exists c1 w',
    eval_tokens s command_alloc w = Ret c1 w' /\
    forall c, c ∈ nodes c1 -> 0 < argc c ->
      exists ws,
        argc c = Z.of_nat (length ws) /\
        argv c = (Ptr ∘ Some <$> ws) ++ [Ptr NULL] /\
        (forall i, (i < length ws)%nat ->
           exists text, argv c !! i = Some (Ptr (Some text))) /\
        argv c !! Z.to_nat (argc c) = Some (Ptr NULL) /\
        c_strings (argv c) = Some ws.
Proof.
  assert (Hp : forall n w0, exists w1, polls n w0 = Ret tt w1).
  { induction n as [|n IH]; intros w0; simpl; [eexists; reflexivity|].
    destruct (waitpid_nohang (-1) w0) as (r & w1 & Hw).
    destruct (IH w1) as (w2 & H2). exists w2.
    now rewrite (bind_ret_eq _ _ _ _ _ Hw). }
  destruct (Hp (length s) w) as (w' & Hw').
  exists (build s command_alloc), w'. split.
  - rewrite eval_tokens_build. now rewrite (bind_ret_eq _ _ _ _ _ Hw').
  - intros c Hc Hpos.
    pose proof (build_shaped s) as Hall.
    rewrite Forall_forall in Hall. specialize (Hall c Hc).
    destruct (shaped_fields c Hall) as [_ [[H0 _]|(u & us & Hn & Ha)]]; [lia|].
    exists (u :: us). rewrite Ha, Hn.
    assert (Hlen : length (Ptr ∘ Some <$> u :: us) = length (u :: us))
      by apply length_fmap.
    repeat split.
    + intros i Hi. rewrite lookup_app_l by lia.
      rewrite list_lookup_fmap.
      destruct (lookup_lt_is_Some_2 (u :: us) i Hi) as [text Ht].
      exists text. now rewrite Ht.
    + rewrite Nat2Z.id. rewrite lookup_app_r by lia.
      rewrite Hlen, Nat.sub_diag. reflexivity.
    + apply c_strings_words.
Qed.

(** ** [start_command] and the process ID *)

Lemma eval_tokens_ret s c0 w c1 w' :
  eval_tokens s c0 w = Ret c1 w' -> c1 = build s c0.
Proof.
  rewrite eval_tokens_build. unfold mbind, M_bind.
  destruct (polls (length s) w); try discriminate.
  unfold mret, M_ret. congruence.
Qed.

Lemma argv_at_first c u us :
  argv c = (Ptr ∘ Some <$> u :: us) ++ [Ptr NULL] ->
  argv_at c 0 = Some (Some u).
Proof. intros Ha. unfold argv_at. rewrite Ha. reflexivity. Qed.

Lemma start_command_child_words E c u us self :
  argv c = (Ptr ∘ Some <$> u :: us) ++ [Ptr NULL] ->
  start_command_child E c self =
    match program E self u (u :: us) with
    | Some (lifetime, status) =>
        Some (Fate [Ev_child_execvp self u (u :: us) true] lifetime status)
    | None =>
        Some (Fate [Ev_child_execvp self u (u :: us) false;
                    Ev_child_perror self "Execvp failed: ";
                    Ev_child_exit self EXIT_FAILURE]
                   (Some 0%nat) EXIT_FAILURE)
    end.
Proof.
  intros Ha. unfold start_command_child.
  assert (H0 : argv_at (set_pid 0 c) 0 = Some (Some u)).
  { apply (argv_at_first _ u us). destruct c; exact Ha. }
  rewrite H0.
  replace (argv (set_pid 0 c)) with (argv c) by (destruct c; reflexivity).
  rewrite Ha, c_strings_words. reflexivity.
Qed.

Lemma start_command_fork E c u us pgid w :
  argv c = (Ptr ∘ Some <$> u :: us) ++ [Ptr NULL] ->
  String.eqb u BUILTIN_CD = false ->
  String.eqb u BUILTIN_EXIT = false ->
  exists w',
    (length (children w) < rlimit_nproc E)%nat /\
    start_command E c pgid w = Ret (pid c) w' /\
    (exists p, children w' = children w ++ [p] /\
               p_pid p = Z.pos (next_pid w))
    \/
    (rlimit_nproc E <= length (children w))%nat /\
    start_command E c pgid w = Ret (-1) w' /\
    children w' = children w.
Proof.
  intros Ha Hcd Hexit.
  unfold start_command. rewrite (argv_at_first c u us Ha).
  rewrite Hcd, Hexit.
  unfold mbind, M_bind, fork.
  destruct (length (children w) <? rlimit_nproc E)%nat eqn:Hlim.
  - apply Nat.ltb_lt in Hlim.
    assert (Hchild : exists f,
      start_command_child E c (Z.pos (next_pid w)) = Some f).
    { rewrite (start_command_child_words E c u us _ Ha).
      destruct (program E _ u (u :: us)) as [[l st]|]; eauto. }
    destruct Hchild as [f ->]. simpl.
    eexists. left. split; [exact Hlim|]. split; [reflexivity|].
    eexists. simpl. split; reflexivity.
  - apply Nat.ltb_ge in Hlim. simpl.
    eexists. right. split; [exact Hlim|]. split; [reflexivity|]. reflexivity.
Qed.

(** C9: for every command of a list that [eval_line] has built, with
    arguments and not a builtin, [start_command] returns -1 in the shell,
    whether [fork] succeeds or not, and not the process ID of the child a
    successful [fork] has added; so [run_list] on that command calls
    [waitpid] with -1, and that call waits for any child. *)
Theorem start_command_returns_minus_one
    (E : machine) (s : list token) (w0 w1 : world) (c1 c : command)
    (w : world) :
  eval_tokens s command_alloc w0 = Ret c1 w1 ->
  c ∈ nodes c1 ->
  0 < argc c ->
  argv_at c 0 ≠ Some (Some BUILTIN_CD) ->
  argv_at c 0 ≠ Some (Some BUILTIN_EXIT) ->
  (exists w',
     start_command E c 42 w = Ret (-1) w' /\
     ((length (children w) < rlimit_nproc E)%nat ->
      exists p, children w' = children w ++ [p] /\
                p_pid p = Z.pos (next_pid w) /\ p_pid p ≠ -1)) /\
  run_list E c w =
    (_ ← start_command E c 42;
     _ ← (if background c =? 0 then _ ← waitpid (-1) 0; mret tt else mret tt);
     match next c with
     | None => mret tt
     | Some c' => run_list E c'
     end) w /\
  (forall w2 p, wait_matches w2 (-1) p = true).
Proof.
  intros Hs Hc Hpos Hcd Hexit.
  apply eval_tokens_ret in Hs. subst c1.
  pose proof (build_shaped s) as Hall.
  rewrite Forall_forall in Hall. specialize (Hall c Hc).
  destruct (shaped_fields c Hall) as [Hpid [[H0 _]|(u & us & Hn & Ha)]]; [lia|].
  pose proof (argv_at_first c u us Ha) as Hu.
  rewrite Hu in Hcd, Hexit.
  assert (Hcd' : String.eqb u BUILTIN_CD = false).
  { apply String.eqb_neq. congruence. }
  assert (Hexit' : String.eqb u BUILTIN_EXIT = false).
  { apply String.eqb_neq. congruence. }
  assert (Hstart : forall w3, exists w',
     start_command E c 42 w3 = Ret (-1) w' /\
     ((length (children w3) < rlimit_nproc E)%nat ->
      exists p, children w' = children w3 ++ [p] /\
                p_pid p = Z.pos (next_pid w3) /\ p_pid p ≠ -1)).
  { intros w3.
    destruct (start_command_fork E c u us 42 w3 Ha Hcd' Hexit')
      as (w' & [(_ & Hr & p & Hp1 & Hp2)|(Hlim & Hr & _)]).
    - exists w'. rewrite Hr, Hpid. split; [reflexivity|].
      intros _. exists p. repeat split; auto. rewrite Hp2. discriminate.
    - exists w'. split; [assumption|]. intros Hlt. lia. }
  split; [apply Hstart|]. split; [|reflexivity].
  destruct c as [n a p b nx]. simpl in *.
  destruct (n =? 0) eqn:Hn0; [apply Z.eqb_eq in Hn0; lia|].
  destruct (Hstart w) as (w' & Hr & _).
  unfold mbind at 1 4. unfold M_bind at 1 4. rewrite Hr.
  reflexivity.
Qed.

Lemma start_command_returns_minus_one_witness :
  (exists w',
     start_command a_machine (command_of ["echo"; "hi"]) 42 a_world
       = Ret (-1) w' /\
     ((length (children a_world) < rlimit_nproc a_machine)%nat ->
      exists p, children w' = children a_world ++ [p] /\
                p_pid p = Z.pos (next_pid a_world) /\ p_pid p ≠ -1)) /\
  run_list a_machine (command_of ["echo"; "hi"]) a_world =
    (_ ← start_command a_machine (command_of ["echo"; "hi"]) 42;
     _ ← (if background (command_of ["echo"; "hi"]) =? 0
          then _ ← waitpid (-1) 0; mret tt else mret tt);
     match next (command_of ["echo"; "hi"]) with
     | None => mret tt
     | Some c' => run_list a_machine c'
     end) a_world /\
  (forall w2 p, wait_matches w2 (-1) p = true).
Proof.
  refine (start_command_returns_minus_one a_machine
            [word "echo"; word "hi"] a_world _ _
            (command_of ["echo"; "hi"]) a_world _ _ _ _ _).
  - vm_compute. reflexivity.
  - vm_compute. left.
  - reflexivity.
  - discriminate.
  - discriminate.
Defined.

(** The blocking [waitpid(-1, ...)] takes whichever child terminates
    first: on [echo & sleep 5] it returns at time 1 with the background
    [echo], and [run_list] is done while [sleep], the foreground command,
    runs until time 5. *)
Example foreground_wait_takes_any_child :
  eval_line a_machine
    [word "echo"; Token TOKEN_BACKGROUND "&"; word "sleep"; word "5"] a_world
  = Ret tt
      (World 1 102 [Proc 101 (Some 5%nat) 0] "/home" 50 50 []
         [Ev_waitpid (-1) 1 (-1) None; Ev_waitpid (-1) 1 (-1) None;
          Ev_waitpid (-1) 1 (-1) None; Ev_waitpid (-1) 1 (-1) None;
          Ev_fork 100; Ev_child_execvp 100 "echo" ["echo"] true;
          Ev_fork 101; Ev_child_execvp 101 "sleep" ["sleep"; "5"] true;
          Ev_waitpid (-1) 0 100 (Some 0)]).
Proof. vm_compute. reflexivity. Qed.

(** ** Lines without [;] and [&] *)

Lemma eval_line_run E s w :
  eval_line E s w =
    (_ ← polls (length s); run_list E (build s command_alloc)) w.
Proof.
  rewrite eval_line_build. apply bind_ext. intros _ w'.
  destruct (build s command_alloc) as [n a p b nx]. simpl.
  destruct (n =? 0); reflexivity.
Qed.

Lemma eval_token_at_other pre cur t :
  tk_type t ≠ TOKEN_NORMAL -> ends_command t = false ->
  eval_token_at (pre, cur) t = (pre, cur).
Proof.
  intros Hn He. unfold eval_token_at. unfold ends_command in He.
  rewrite He. simpl.
  apply orb_false_iff in He. destruct He as [_ Hb]. rewrite Hb.
  apply Z.eqb_neq in Hn. now rewrite Hn.
Qed.

Lemma eval_token_at_word pre vs t :
  tk_type t = TOKEN_NORMAL ->
  eval_token_at (pre, command_of vs) t = (pre, command_of (vs ++ [tk_text t])).
Proof.
  intros Hn. unfold eval_token_at. rewrite Hn. simpl.
  now rewrite command_append_arg_of.
Qed.

Lemma eval_tokens_at_no_sep s pre vs :
  Forall (fun t => ends_command t = false) s ->
  fold_left eval_token_at s (pre, command_of vs)
  = (pre, command_of (vs ++ words_of s)).
Proof.
  intros Hs. revert vs. induction Hs as [|t s Ht Hs IH]; intros vs.
  - simpl. unfold words_of. simpl. now rewrite app_nil_r.
  - cbn [fold_left]. unfold words_of. rewrite filter_cons.
    destruct (decide (tk_type t = TOKEN_NORMAL)) as [Hn|Hn].
    + rewrite eval_token_at_word by assumption. rewrite IH.
      rewrite fmap_cons. unfold words_of.
      now rewrite <- (assoc_L (++)).
    + rewrite eval_token_at_other by assumption. apply IH.
Qed.

Lemma build_no_sep s :
  Forall (fun t => ends_command t = false) s ->
  build s command_alloc = command_of (words_of s).
Proof.
  intros Hs.
  destruct (build_link s [] command_alloc eq_refl) as [Hb _].
  simpl in Hb. rewrite Hb.
  change command_alloc with (command_of []).
  rewrite eval_tokens_at_no_sep by assumption. reflexivity.
Qed.

Lemma words_of_words ws : words_of (word <$> ws) = ws.
Proof.
  unfold words_of. induction ws as [|w ws IH]; [reflexivity|].
  rewrite fmap_cons, filter_cons. simpl.
  destruct (decide (TOKEN_NORMAL = TOKEN_NORMAL)); [|congruence].
  f_equal. exact IH.
Qed.

Lemma words_of_app s1 s2 : words_of (s1 ++ s2) = words_of s1 ++ words_of s2.
Proof. unfold words_of. now rewrite filter_app, fmap_app. Qed.

Lemma words_of_other t s :
  tk_type t ≠ TOKEN_NORMAL -> words_of (t :: s) = words_of s.
Proof.
  intros Hn. unfold words_of. rewrite filter_cons.
  destruct (decide (tk_type t = TOKEN_NORMAL)); [contradiction|reflexivity].
Qed.

Lemma no_sep_words ws : Forall (fun t => ends_command t = false) (word <$> ws).
Proof.
  induction ws as [|w ws IH]; [constructor|].
  rewrite fmap_cons. constructor; [reflexivity|exact IH].
Qed.

Lemma run_list_one E u us w :
  run_list E (command_of (u :: us)) w =
    (child ← start_command E (command_of (u :: us)) 42;
     _ ← waitpid child 0;
     mret tt) w.
Proof.
  unfold command_of. cbn [run_list].
  replace (Z.of_nat (length (u :: us)) =? 0) with false
    by (symmetry; apply Z.eqb_neq; simpl length; lia).
  change (0 =? 0) with true. cbv iota.
  apply bind_ext. intros child w1.
  rewrite bind_assoc. apply bind_ext. intros r w2. reflexivity.
Qed.

(** The line [a op b], where [op] neither is a word nor ends a command,
    runs as the one command whose arguments are the words of [a] and then
    those of [b]. *)
Lemma eval_line_joined E u a b op w :
  tk_type op ≠ TOKEN_NORMAL -> ends_command op = false ->
  eval_line E ((word <$> u :: a) ++ op :: (word <$> b)) w =
    (_ ← polls (length (u :: a) + 1 + length b);
     child ← start_command E (command_of (u :: a ++ b)) 42;
     _ ← waitpid child 0;
     mret tt) w.
Proof.
  intros Hn He. rewrite eval_line_run.
  assert (Hlen : length ((word <$> u :: a) ++ op :: (word <$> b))
                 = (length (u :: a) + 1 + length b)%nat).
  { rewrite length_app, length_fmap. cbn [length]. rewrite length_fmap. lia. }
  rewrite Hlen.
  apply bind_ext. intros _ w'.
  rewrite build_no_sep.
  - rewrite words_of_app, words_of_words, words_of_other, words_of_words
      by assumption.
    apply run_list_one.
  - apply Forall_app. split; [apply no_sep_words|].
    constructor; [assumption|apply no_sep_words].
Qed.

(** C1: the tokens of [&&] and [||] change nothing in the command list.  The
    line [a && b], and likewise [a || b], is run as ONE command, [a] with
    the words of [b] as further arguments: it is started once and waited
    for, and no pipeline [b] is started whatever the exit status of [a]. *)
Theorem conditionals_run_as_one_command
    (E : machine) (u : string) (a b : list string) (txt : string) (w : world) :
  eval_line E ((word <$> u :: a) ++ Token TOKEN_AND txt :: (word <$> b)) w =
    (_ ← polls (length (u :: a) + 1 + length b);
     child ← start_command E (command_of (u :: a ++ b)) 42;
     _ ← waitpid child 0;
     mret tt) w
  /\
  eval_line E ((word <$> u :: a) ++ Token TOKEN_OR txt :: (word <$> b)) w =
    (_ ← polls (length (u :: a) + 1 + length b);
     child ← start_command E (command_of (u :: a ++ b)) 42;
     _ ← waitpid child 0;
     mret tt) w.
Proof.
  split; apply eval_line_joined; simpl; try discriminate; reflexivity.
Qed.

Example and_line_runs_one_process :
  eval_line a_machine
    [word "true"; Token TOKEN_AND "&&"; word "echo"; word "bye"] a_world
  = Ret tt
      (World 0 101 [] "/home" 50 50 []
         [Ev_waitpid (-1) 1 (-1) None; Ev_waitpid (-1) 1 (-1) None;
          Ev_waitpid (-1) 1 (-1) None; Ev_waitpid (-1) 1 (-1) None;
          Ev_fork 100;
          Ev_child_execvp 100 "true" ["true"; "echo"; "bye"] true;
          Ev_waitpid (-1) 0 100 (Some 0)]).
Proof. vm_compute. reflexivity. Qed.

Example or_line_runs_one_process :
  eval_line a_machine
    [word "false"; Token TOKEN_OR "||"; word "echo"; word "bye"] a_world
  = Ret tt
      (World 0 101 [] "/home" 50 50 []
         [Ev_waitpid (-1) 1 (-1) None; Ev_waitpid (-1) 1 (-1) None;
          Ev_waitpid (-1) 1 (-1) None; Ev_waitpid (-1) 1 (-1) None;
          Ev_fork 100;
          Ev_child_execvp 100 "false" ["false"; "echo"; "bye"] true;
          Ev_waitpid (-1) 0 100 (Some 1)]).
Proof. vm_compute. reflexivity. Qed.

(** ** Pipelines *)

Lemma pipe_line_no_sep stages :
  Forall (fun t => ends_command t = false) (pipe_line stages).
Proof.
  induction stages as [|ws [|ws' stages] IH].
  - constructor.
  - apply no_sep_words.
  - change (pipe_line (ws :: ws' :: stages))
      with ((word <$> ws) ++ Token TOKEN_PIPE "|" :: pipe_line (ws' :: stages)).
    apply Forall_app. split; [apply no_sep_words|].
    constructor; [reflexivity|exact IH].
Qed.

Lemma pipe_line_words stages : words_of (pipe_line stages) = concat stages.
Proof.
  induction stages as [|ws [|ws' stages] IH].
  - reflexivity.
  - simpl. rewrite app_nil_r. apply words_of_words.
  - change (pipe_line (ws :: ws' :: stages))
      with ((word <$> ws) ++ Token TOKEN_PIPE "|" :: pipe_line (ws' :: stages)).
    rewrite words_of_app, words_of_words, words_of_other by discriminate.
    rewrite IH. reflexivity.
Qed.

(** C2: the token of [|] changes nothing in the command list.  The line
    [s1 | s2 | ... | sN] is run as ONE command, [s1] with the words of the
    later stages as further arguments: one call of [start_command] and one
    [waitpid], so that no stage after the first is started. *)
Theorem pipeline_runs_as_one_command
    (E : machine) (u : string) (a : list string)
    (stages : list (list string)) (w : world) :
  eval_line E (pipe_line ((u :: a) :: stages)) w =
    (_ ← polls (length (pipe_line ((u :: a) :: stages)));
     child ← start_command E (command_of (u :: a ++ concat stages)) 42;
     _ ← waitpid child 0;
     mret tt) w.
Proof.
  rewrite eval_line_run. apply bind_ext. intros _ w'.
  rewrite build_no_sep by apply pipe_line_no_sep.
  rewrite pipe_line_words. apply run_list_one.
Qed.

Example pipe_line_runs_one_process :
  eval_line a_machine
    (pipe_line [["echo"; "a"]; ["tr"; "a"; "b"]]) a_world
  = Ret tt
      (World 1 101 [] "/home" 50 50 []
         [Ev_waitpid (-1) 1 (-1) None; Ev_waitpid (-1) 1 (-1) None;
          Ev_waitpid (-1) 1 (-1) None; Ev_waitpid (-1) 1 (-1) None;
          Ev_waitpid (-1) 1 (-1) None; Ev_waitpid (-1) 1 (-1) None;
          Ev_fork 100;
          Ev_child_execvp 100 "echo" ["echo"; "a"; "tr"; "a"; "b"] true;
          Ev_waitpid (-1) 0 100 (Some 0)]).
Proof. vm_compute. reflexivity. Qed.

(** ** Redirections *)

(** C5: the token of a redirection operator changes nothing in the command
    list, and the word after it is appended to [argv] like any other.  The
    line [u a... op path b...] is run as the one command with the arguments
    [u a... path b...], and the process started for it goes straight to
    [execvp] with [path] among the arguments: nothing is redirected. *)
Theorem redirection_target_becomes_argument
    (E : machine) (u : string) (a : list string) (op path : string)
    (b : list string) (w : world) :
  eval_line E ((word <$> u :: a) ++
               Token TOKEN_REDIRECTION op :: word path :: (word <$> b)) w =
    (_ ← polls (length (u :: a) + 1 + length (path :: b));
     child ← start_command E (command_of (u :: a ++ path :: b)) 42;
     _ ← waitpid child 0;
     mret tt) w
  /\
  forall self,
    start_command_child E (command_of (u :: a ++ path :: b)) self =
      match program E self u (u :: a ++ path :: b) with
      | Some (lifetime, status) =>
          Some (Fate [Ev_child_execvp self u (u :: a ++ path :: b) true]
                     lifetime status)
      | None =>
          Some (Fate [Ev_child_execvp self u (u :: a ++ path :: b) false;
                      Ev_child_perror self "Execvp failed: ";
                      Ev_child_exit self EXIT_FAILURE]
                     (Some 0%nat) EXIT_FAILURE)
      end.
Proof.
  split.
  - apply (eval_line_joined E u a (path :: b)
             (Token TOKEN_REDIRECTION op) w); simpl;
      [discriminate|reflexivity].
  - intros self. apply start_command_child_words. reflexivity.
Qed.

Example redirection_line_runs_with_path_argument :
  eval_line a_machine
    [word "echo"; word "hi"; Token TOKEN_REDIRECTION ">"; word "out.txt"]
    a_world
  = Ret tt
      (World 1 101 [] "/home" 50 50 []
         [Ev_waitpid (-1) 1 (-1) None; Ev_waitpid (-1) 1 (-1) None;
          Ev_waitpid (-1) 1 (-1) None; Ev_waitpid (-1) 1 (-1) None;
          Ev_fork 100;
          Ev_child_execvp 100 "echo" ["echo"; "hi"; "out.txt"] true;
          Ev_waitpid (-1) 0 100 (Some 0)]).
Proof. vm_compute. reflexivity. Qed.

(** ** Sequences *)



Lemma eval_tokens_at_app s1 s2 st :
  fold_left eval_token_at (s1 ++ s2) st
  = fold_left eval_token_at s2 (fold_left eval_token_at s1 st).
Proof. apply fold_left_app. Qed.





Lemma in_sequence_app E cs1 cs2 w :
  in_sequence E (cs1 ++ cs2) w
  = (_ ← in_sequence E cs1; in_sequence E cs2) w.
Proof.
  revert w. induction cs1 as [|c cs1 IH]; intros w.
  - reflexivity.
  - cbn [app in_sequence]. rewrite bind_assoc.
    apply bind_ext. intros child w1. rewrite bind_assoc.
    apply bind_ext. intros r w2. apply IH.
Qed.








Example sequence_after_failure :
  eval_line a_machine (seq_line [["false"]; ["echo"; "hi"]] true) a_world
  = Ret tt
      (World 1 102 [] "/home" 50 50 []
         [Ev_waitpid (-1) 1 (-1) None; Ev_waitpid (-1) 1 (-1) None;
          Ev_waitpid (-1) 1 (-1) None; Ev_waitpid (-1) 1 (-1) None;
          Ev_waitpid (-1) 1 (-1) None;
          Ev_fork 100; Ev_child_execvp 100 "false" ["false"] true;
          Ev_waitpid (-1) 0 100 (Some 1);
          Ev_fork 101; Ev_child_execvp 101 "echo" ["echo"; "hi"] true;
          Ev_waitpid (-1) 0 101 (Some 0)]).
Proof. vm_compute. reflexivity. Qed.

(** ** Empty commands *)



Lemma run_list_build E s w :
  run_list E (build s command_alloc) w =
    run_nodes E (fst (fold_left eval_token_at s ([], command_alloc)) ++
                 [snd (fold_left eval_token_at s ([], command_alloc))]) w.
Proof.
  destruct (build_link s [] command_alloc eq_refl) as [Hb Hn].
  simpl link in Hb. rewrite Hb. now apply run_list_link.
Qed.




(** ** The terminal *)

Lemma keeps_ret {A} (a : A) : keeps_terminal (mret a).
Proof.
  intros w. simpl. repeat split. exists []. split; [now rewrite app_nil_r|constructor].
Qed.

Lemma keeps_bind {A B} (m : M A) (f : A -> M B) :
  keeps_terminal m -> (forall a, keeps_terminal (f a)) ->
  keeps_terminal (m ≫= f).
Proof.
  intros Hm Hf w. specialize (Hm w). unfold mbind, M_bind.
  destruct (m w) as [a w1|st w1|w1|w1]; simpl in Hm; simpl; try exact Hm.
  destruct Hm as (Ht & Hs & new1 & Hn1 & Hq1).
  destruct (Hf a w1) as (Ht2 & Hs2 & new2 & Hn2 & Hq2).
  split; [congruence|]. split; [congruence|].
  exists (new1 ++ new2). split.
  - rewrite Hn2, Hn1. now rewrite <- (assoc_L (++)).
  - apply Forall_app. auto.
Qed.

Lemma keeps_log {A} (a : A) (e : list event) :
  Forall (fun e => is_set_foreground e = false) e ->
  keeps_terminal (fun w => Ret a (log e w)).
Proof. intros He w. simpl. repeat split. exists e. auto. Qed.

Lemma keeps_emit e : is_set_foreground e = false -> keeps_terminal (emit e).
Proof. intros He. apply (keeps_log tt [e]). repeat constructor. exact He. Qed.

Lemma keeps_fault {A} : keeps_terminal (@fault A).
Proof.
  intros w. simpl. repeat split. exists []. split; [now rewrite app_nil_r|constructor].
Qed.

Lemma keeps_exit {A} st : keeps_terminal (@_exit A st).
Proof. intros w. simpl. repeat split. exists [Ev_exit st]. repeat constructor. Qed.

Lemma keeps_elapse d : keeps_terminal (elapse d).
Proof.
  intros w. simpl. repeat split. exists []. split; [now rewrite app_nil_r|constructor].
Qed.

Lemma keeps_waitpid pid options : keeps_terminal (waitpid pid options).
Proof.
  intros w. unfold waitpid.
  assert (Hlog : forall r st,
    let w' := log [Ev_waitpid pid options r st] w in
    tty_pgid w' = tty_pgid w /\ sh_pgid w' = sh_pgid w /\
    exists new, trace w' = trace w ++ new /\
                Forall (fun e => is_set_foreground e = false) new).
  { intros r st. simpl. repeat split. eexists. split; [reflexivity|].
    repeat constructor. }
  assert (Hwaited : forall t q,
    let o := waited pid options t q w in
    tty_pgid (world_of o) = tty_pgid w /\ sh_pgid (world_of o) = sh_pgid w /\
    exists new, trace (world_of o) = trace w ++ new /\
                Forall (fun e => is_set_foreground e = false) new).
  { intros t q. simpl. repeat split. eexists. split; [reflexivity|].
    repeat constructor. }
  destruct (filter _ (children w)) as [|c0 cs]; [apply Hlog|].
  destruct (first_exit _) as [[t q]|].
  - destruct (t <=? now w)%nat; [apply Hwaited|].
    destruct (negb _); [apply Hlog|apply Hwaited].
  - destruct (negb _); [apply Hlog|].
    simpl. repeat split. exists []. split; [now rewrite app_nil_r|constructor].
Qed.

Lemma keeps_fork E child :
  (forall self f, child self = Some f ->
     Forall (fun e => is_set_foreground e = false) (f_events f)) ->
  keeps_terminal (fork E child).
Proof.
  intros Hchild w. unfold fork.
  destruct (length (children w) <? rlimit_nproc E)%nat.
  - destruct (child (Z.pos (next_pid w))) as [f|] eqn:Hf; simpl.
    + repeat split. eexists. split; [reflexivity|].
      constructor; [reflexivity|]. eapply Hchild. exact Hf.
    + repeat split. exists []. split; [now rewrite app_nil_r|constructor].
  - simpl. repeat split. eexists. split; [reflexivity|]. repeat constructor.
Qed.

Lemma keeps_chdir E path : keeps_terminal (chdir E path).
Proof.
  intros w. unfold chdir.
  destruct path as [p|]; [destruct (resolve E (cwd w) p)|]; simpl;
    repeat split; eexists; (split; [reflexivity|]); repeat constructor.
Qed.

Lemma start_command_child_events E c self f :
  start_command_child E c self = Some f ->
  Forall (fun e => is_set_foreground e = false) (f_events f).
Proof.
  unfold start_command_child.
  destruct (argv_at (set_pid 0 c) 0) as [[file|]|]; try discriminate.
  destruct (c_strings (argv (set_pid 0 c))) as [args|]; try discriminate.
  destruct (program E self file args) as [[l st]|];
    intros [= <-]; repeat constructor.
Qed.

Create HintDb keeps discriminated.

#[local] Hint Resolve keeps_ret keeps_fault keeps_exit keeps_elapse
  keeps_waitpid keeps_chdir : keeps.
#[local] Hint Extern 1 (keeps_terminal (emit _)) =>
  apply keeps_emit; reflexivity : keeps.
#[local] Hint Extern 1 (keeps_terminal (perror _)) =>
  apply keeps_emit; reflexivity : keeps.
#[local] Hint Extern 1 (keeps_terminal (fprintf_stderr _)) =>
  apply keeps_emit; reflexivity : keeps.
#[local] Hint Extern 2 (keeps_terminal (_ ≫= _)) =>
  apply keeps_bind; [|intros ?] : keeps.
#[local] Hint Extern 3 (keeps_terminal (if ?b then _ else _)) =>
  destruct b : keeps.

Lemma keeps_start_command E c pgid : keeps_terminal (start_command E c pgid).
Proof.
  unfold start_command.
  destruct (argv_at c 0) as [[arg0|]|]; auto with keeps.
  destruct (String.eqb arg0 BUILTIN_CD).
  - destruct (argv_at c 1) as [path|]; auto 6 with keeps.
  - destruct (String.eqb arg0 BUILTIN_EXIT); [auto with keeps|].
    apply keeps_bind.
    + apply keeps_fork. apply start_command_child_events.
    + intros child_pid. auto 6 with keeps.
Qed.

#[local] Hint Resolve keeps_start_command : keeps.

Lemma keeps_run_list E c : keeps_terminal (run_list E c).
Proof.
  induction c as [n a p b|n a p b c' IH] using command_ind; cbn [run_list];
    auto 8 with keeps.
Qed.

Lemma keeps_eval_tokens s c1 : keeps_terminal (eval_tokens s c1).
Proof.
  revert c1. induction s as [|t s IH]; intros c1; cbn [eval_tokens];
    auto with keeps.
Qed.

#[local] Hint Resolve keeps_run_list keeps_eval_tokens : keeps.

Lemma keeps_eval_line E s : keeps_terminal (eval_line E s).
Proof. unfold eval_line. auto with keeps. Qed.

#[local] Hint Resolve keeps_eval_line : keeps.

Lemma keeps_main_loop E quiet input : keeps_terminal (main_loop E quiet input).
Proof.
  assert (Hprompt : keeps_terminal
            (if quiet then mret tt else fun w => emit (Ev_prompt (cwd w)) w)).
  { destruct quiet; [auto with keeps|].
    intros w. apply (keeps_emit (Ev_prompt (cwd w))). reflexivity. }
  induction input as [|[delay s] input IH]; cbn [main_loop];
    [exact Hprompt|].
  apply keeps_bind; [exact Hprompt|].
  intros _. auto 8 with keeps.
Qed.

(** C4: [run_list] does not touch the terminal.  Whatever the line and its
    outcome, [eval_line] leaves the foreground process group as it was and
    makes no call of [set_foreground]; in a whole run of [main] the only
    such call is [set_foreground(0)] at startup, and the foreground group is
    the shell's own from then on. *)
Theorem terminal_never_handed_over
    (E : machine) (s : list token) (quiet : bool)
    (input : list (nat * list token)) (w : world) :
  (tty_pgid (world_of (eval_line E s w)) = tty_pgid w /\
   exists new,
     trace (world_of (eval_line E s w)) = trace w ++ new /\
     Forall (fun e => is_set_foreground e = false) new) /\
  (tty_pgid (world_of (main E quiet input w)) = sh_pgid w /\
   exists new,
     trace (world_of (main E quiet input w))
       = trace w ++ Ev_set_foreground 0 :: new /\
     Forall (fun e => is_set_foreground e = false) new).
Proof.
  split.
  - destruct (keeps_eval_line E s w) as (Ht & _ & Hn). auto.
  - unfold main.
    set (rest := handle_signal_ign SIGTTOU ≫= fun _ =>
                 main_loop E quiet input ≫= fun _ => mret 0).
    assert (Hrest : keeps_terminal rest).
    { apply keeps_bind.
      - intros w0. simpl. repeat split. eexists. split; [reflexivity|].
        repeat constructor.
      - intros _. apply keeps_bind; [apply keeps_main_loop|].
        intros _. apply keeps_ret. }
    set (w1 := World (now w) (next_pid w) (children w) (cwd w) (sh_pgid w)
                     (sh_pgid w) (ignored w)
                     (trace w ++ [Ev_set_foreground 0])).
    change ((set_foreground 0 ≫= fun _ => rest) w) with (rest w1).
    destruct (Hrest w1) as (Ht & Hs & new & Hn & Hq).
    split; [exact Ht|].
    exists new. split; [|exact Hq].
    rewrite Hn. subst w1. simpl. now rewrite <- (assoc_L (++)).
Qed.

Example foreground_command_without_handover :
  main a_machine true [(0%nat, [word "echo"; word "hi"])] a_world
  = Ret 0
      (World 1 101 [] "/home" 50 50 [SIGTTOU]
         [Ev_set_foreground 0; Ev_handle_signal SIGTTOU;
          Ev_waitpid (-1) 1 (-1) None; Ev_waitpid (-1) 1 (-1) None;
          Ev_fork 100; Ev_child_execvp 100 "echo" ["echo"; "hi"] true;
          Ev_waitpid (-1) 0 100 (Some 0);
          Ev_waitpid (-1) 1 (-1) None]).
Proof. vm_compute. reflexivity. Qed.

(** ** Programs that cannot be executed *)

(** C6, as the code has it: when the program of a command that is not a
    builtin cannot be executed and [fork] succeeds, the child perrors and
    leaves at once through [_exit(EXIT_FAILURE)], and [EXIT_FAILURE] is not
    0; in the shell [start_command] returns as for any other command, and
    nothing of the shell's state changes but the new child in the table. *)
Theorem exec_failure_exits_with_EXIT_FAILURE
    (E : machine) (c : command) (u : string) (us : list string) (w : world) :
  argv c = (Ptr ∘ Some <$> u :: us) ++ [Ptr NULL] ->
  String.eqb u BUILTIN_CD = false ->
  String.eqb u BUILTIN_EXIT = false ->
  (length (children w) < rlimit_nproc E)%nat ->
  program E (Z.pos (next_pid w)) u (u :: us) = None ->
  start_command_child E c (Z.pos (next_pid w)) =
    Some (Fate [Ev_child_execvp (Z.pos (next_pid w)) u (u :: us) false;
                Ev_child_perror (Z.pos (next_pid w)) "Execvp failed: ";
                Ev_child_exit (Z.pos (next_pid w)) EXIT_FAILURE]
               (Some 0%nat) EXIT_FAILURE) /\
  EXIT_FAILURE ≠ 0 /\
  start_command E c 42 w =
    Ret (pid c)
        (World (now w) (Pos.succ (next_pid w))
               (children w ++
                [Proc (Z.pos (next_pid w)) (Some (now w)) EXIT_FAILURE])
               (cwd w) (sh_pgid w) (tty_pgid w) (ignored w)
               (trace w ++
                [Ev_fork (Z.pos (next_pid w));
                 Ev_child_execvp (Z.pos (next_pid w)) u (u :: us) false;
                 Ev_child_perror (Z.pos (next_pid w)) "Execvp failed: ";
                 Ev_child_exit (Z.pos (next_pid w)) EXIT_FAILURE])).
Proof.
  intros Ha Hcd Hexit Hlim Hprog.
  assert (Hchild : start_command_child E c (Z.pos (next_pid w)) =
    Some (Fate [Ev_child_execvp (Z.pos (next_pid w)) u (u :: us) false;
                Ev_child_perror (Z.pos (next_pid w)) "Execvp failed: ";
                Ev_child_exit (Z.pos (next_pid w)) EXIT_FAILURE]
               (Some 0%nat) EXIT_FAILURE)).
  { rewrite (start_command_child_words E c u us _ Ha). now rewrite Hprog. }
  split; [exact Hchild|]. split; [discriminate|].
  unfold start_command. rewrite (argv_at_first c u us Ha), Hcd, Hexit.
  unfold mbind, M_bind, fork.
  apply Nat.ltb_lt in Hlim. rewrite Hlim, Hchild.
  cbn [f_events f_lifetime f_status fmap option_fmap option_map].
  rewrite Nat.add_0_r. reflexivity.
Qed.

Lemma exec_failure_exits_with_EXIT_FAILURE_witness :
  start_command_child a_machine (command_of ["nosuch"; "x"]) 100 =
    Some (Fate [Ev_child_execvp 100 "nosuch" ["nosuch"; "x"] false;
                Ev_child_perror 100 "Execvp failed: ";
                Ev_child_exit 100 EXIT_FAILURE]
               (Some 0%nat) EXIT_FAILURE) /\
  EXIT_FAILURE ≠ 0 /\
  start_command a_machine (command_of ["nosuch"; "x"]) 42 a_world =
    Ret (-1)
        (World 0 101 [Proc 100 (Some 0%nat) EXIT_FAILURE] "/home" 50 50 []
               [Ev_fork 100;
                Ev_child_execvp 100 "nosuch" ["nosuch"; "x"] false;
                Ev_child_perror 100 "Execvp failed: ";
                Ev_child_exit 100 EXIT_FAILURE]).
Proof.
  apply (exec_failure_exits_with_EXIT_FAILURE a_machine
           (command_of ["nosuch"; "x"]) "nosuch" ["x"] a_world);
    try reflexivity.
  simpl. lia.
Defined.

(** C6, as it is written, fails: a command that cannot be executed and the
    program [false], which runs and fails, leave with the same status 1, and
    the shell's [waitpid] is handed the same status for either. *)
Lemma exec_failure_status_not_distinct :
  program a_machine 100 "nosuch" ["nosuch"] = None /\
  program a_machine 100 "false" ["false"] = Some (Some 0%nat, 1) /\
  f_status <$> start_command_child a_machine (command_of ["nosuch"]) 100
    = Some 1 /\
  f_status <$> start_command_child a_machine (command_of ["false"]) 100
    = Some 1 /\
  trace (world_of (eval_line a_machine [word "nosuch"] a_world))
    = [Ev_waitpid (-1) 1 (-1) None; Ev_fork 100;
       Ev_child_execvp 100 "nosuch" ["nosuch"] false;
       Ev_child_perror 100 "Execvp failed: "; Ev_child_exit 100 1;
       Ev_waitpid (-1) 0 100 (Some 1)] /\
  trace (world_of (eval_line a_machine [word "false"] a_world))
    = [Ev_waitpid (-1) 1 (-1) None; Ev_fork 100;
       Ev_child_execvp 100 "false" ["false"] true;
       Ev_waitpid (-1) 0 100 (Some 1)].
Proof. repeat split; vm_compute; reflexivity. Qed.

(** ** Background commands *)

(** A shell whose only child [p] is still running blocks on [cd path] until
    [p] terminates: [start_command] returns 0 for the builtin and [run_list]
    waits for "process 0", that is for any child, and reaps [p]. *)
Lemma cd_waits_for_running_child E path dir p t w :
  children w = [p] ->
  p_exit_at p = Some t ->
  (now w < t)%nat ->
  resolve E (cwd w) path = Some dir ->
  run_list E (command_of ["cd"; path]) w =
    Ret tt
        (World t (next_pid w) [] dir (sh_pgid w) (tty_pgid w) (ignored w)
               (trace w ++ [Ev_chdir (Some path) 0;
                            Ev_waitpid 0 0 (p_pid p) (Some (p_status p))])).
Proof.
  intros Hch Hp Hlt Hres.
  set (c := command_of ["cd"; path]).
  assert (Hstart : start_command E c 42 w =
    Ret 0 (World (now w) (next_pid w) (children w) dir (sh_pgid w)
                 (tty_pgid w) (ignored w)
                 (trace w ++ [Ev_chdir (Some path) 0]))).
  { unfold start_command.
    assert (H0 : argv_at c 0 = Some (Some "cd")) by reflexivity.
    assert (H1 : argv_at c 1 = Some (Some path)) by reflexivity.
    rewrite H0, H1. change (String.eqb "cd" BUILTIN_CD) with true. cbv iota.
    unfold mbind, M_bind, chdir. now rewrite Hres. }
  assert (Hwait : forall w1, children w1 = [p] -> now w1 = now w ->
    waitpid 0 0 w1 = waited 0 0 t p w1).
  { intros w1 Hc1 Hn1. unfold waitpid. rewrite Hc1, filter_cons, filter_nil.
    destruct (decide (wait_matches w1 0 p = true)) as [_|Hno];
      [|exfalso; apply Hno; reflexivity].
    cbn [first_exit]. rewrite Hp, Hn1.
    replace (t <=? now w)%nat with false
      by (symmetry; apply Nat.leb_gt; exact Hlt).
    reflexivity. }
  subst c. rewrite run_list_one.
  rewrite (bind_ret_eq _ _ _ _ _ Hstart).
  unfold mbind, M_bind. rewrite Hwait by (simpl; auto).
  unfold waited, reap.
  cbn [children sh_pgid now next_pid cwd tty_pgid ignored trace].
  rewrite Hch, filter_cons, filter_nil.
  destruct (decide (p_pid p ≠ p_pid p)) as [Hne|_]; [congruence|].
  rewrite <- (assoc_L (++)). reflexivity.
Qed.

(** Where no blocking [waitpid] comes in between, a background child is
    left to the polls: [sleep 5 &] returns to the prompt at time 0, and the
    first poll of the line read at time 7 reaps the child. *)
Example background_child_reaped_by_poll :
  main a_machine true
    [(0%nat, [word "sleep"; word "5"; Token TOKEN_BACKGROUND "&"]);
     (7%nat, [word "true"])] a_world
  = Ret 0
      (World 7 102 [] "/home" 50 50 [SIGTTOU]
         [Ev_set_foreground 0; Ev_handle_signal SIGTTOU;
          Ev_waitpid (-1) 1 (-1) None; Ev_waitpid (-1) 1 (-1) None;
          Ev_waitpid (-1) 1 (-1) None;
          Ev_fork 100; Ev_child_execvp 100 "sleep" ["sleep"; "5"] true;
          Ev_waitpid (-1) 1 0 None;
          Ev_waitpid (-1) 1 100 (Some 0);
          Ev_fork 101; Ev_child_execvp 101 "true" ["true"] true;
          Ev_waitpid (-1) 0 101 (Some 0);
          Ev_waitpid (-1) 1 (-1) None]).
Proof. vm_compute. reflexivity. Qed.

(** C3 fails on the line [sleep 5 & cd /]: the shell does not wait after
    starting [sleep], but the [waitpid(0, &status, 0)] that follows the
    builtin blocks it until time 5, when the background [sleep]
    terminates, and it is this blocking call that reaps it; the same line
    with [yes] for [sleep 5] blocks the shell for ever. *)
Theorem background_child_blocks_cd :
  eval_line a_machine
    [word "sleep"; word "5"; Token TOKEN_BACKGROUND "&"; word "cd"; word "/"]
    a_world
  = Ret tt
      (World 5 101 [] "/" 50 50 []
         [Ev_waitpid (-1) 1 (-1) None; Ev_waitpid (-1) 1 (-1) None;
          Ev_waitpid (-1) 1 (-1) None; Ev_waitpid (-1) 1 (-1) None;
          Ev_waitpid (-1) 1 (-1) None;
          Ev_fork 100; Ev_child_execvp 100 "sleep" ["sleep"; "5"] true;
          Ev_chdir (Some "/") 0;
          Ev_waitpid 0 0 100 (Some 0)])
  /\
  eval_line a_machine
    [word "yes"; Token TOKEN_BACKGROUND "&"; word "cd"; word "/"] a_world
  = Hung
      (World 0 101 [Proc 100 None 0] "/" 50 50 []
         [Ev_waitpid (-1) 1 (-1) None; Ev_waitpid (-1) 1 (-1) None;
          Ev_waitpid (-1) 1 (-1) None; Ev_waitpid (-1) 1 (-1) None;
          Ev_fork 100; Ev_child_execvp 100 "yes" ["yes"] true;
          Ev_chdir (Some "/") 0]).
Proof. split; vm_compute; reflexivity. Qed.

(** ** Further properties of the command list and its run *)

Lemma within_ret {A} R ok (a : A) :
  Reflexive R -> ok Returns = true -> within R ok (mret a).
Proof. intros HR Hok w. split; [apply HR|exact Hok]. Qed.

Lemma within_bind {A B} R ok (m : M A) (f : A -> M B) :
  Transitive R ->
  within R ok m -> (forall a, within R ok (f a)) -> within R ok (m ≫= f).
Proof.
  intros HR Hm Hf w. specialize (Hm w). unfold mbind, M_bind.
  destruct (m w) as [a w1|st w1|w1|w1]; simpl in Hm; simpl; try exact Hm.
  destruct Hm as [Hm _]. destruct (Hf a w1) as [Hf1 Hf2].
  split; [|exact Hf2]. eapply HR; eassumption.
Qed.

#[local] Instance any_world_refl : Reflexive any_world.
Proof. intros w. exact I. Qed.

#[local] Instance any_world_trans : Transitive any_world.
Proof. intros w1 w2 w3 _ _. exact I. Qed.

#[local] Instance same_time_refl : Reflexive same_time.
Proof. intros w. reflexivity. Qed.

#[local] Instance same_time_trans : Transitive same_time.
Proof. intros w1 w2 w3 H1 H2. unfold same_time in *. congruence. Qed.

Lemma sound_waitpid pid options :
  within any_world sound_ending (waitpid pid options).
Proof.
  intros w. split; [exact I|]. unfold waitpid.
  destruct (filter _ (children w)) as [|c0 cs]; [reflexivity|].
  destruct (first_exit _) as [[t q]|].
  - destruct (t <=? now w)%nat; [reflexivity|].
    destruct (negb _); reflexivity.
  - destruct (negb _); reflexivity.
Qed.

Lemma run_list_nodes E c w : run_list E c w = run_nodes E (nodes c) w.
Proof.
  revert w.
  induction c as [n a p b|n a p b c' IH] using command_ind; intros w;
    cbn [run_list nodes run_nodes argc background];
    (destruct (n =? 0); [reflexivity|]);
    apply bind_ext; intros child w1; apply bind_ext; intros _ w2.
  - reflexivity.
  - apply IH.
Qed.

Lemma argv_at_second c u us :
  argv c = (Ptr ∘ Some <$> u :: us) ++ [Ptr NULL] ->
  argv_at c 1 = Some (head us).
Proof.
  intros Ha. unfold argv_at. rewrite Ha. destruct us; reflexivity.
Qed.

Lemma sound_start_command E c pgid :
  shaped c -> argc c ≠ 0 ->
  within any_world sound_ending (start_command E c pgid).
Proof.
  intros Hs Hn w. split; [exact I|].
  destruct (shaped_fields c Hs) as [_ [[H0 _]|(u & us & _ & Ha)]];
    [contradiction|].
  destruct (String.eqb u BUILTIN_CD) eqn:Hcd.
  - unfold start_command.
    rewrite (argv_at_first c u us Ha), Hcd, (argv_at_second c u us Ha).
    unfold mbind, M_bind, chdir.
    destruct (head us) as [path|]; [destruct (resolve E (cwd w) path)|];
      reflexivity.
  - destruct (String.eqb u BUILTIN_EXIT) eqn:Hexit.
    + unfold start_command. rewrite (argv_at_first c u us Ha), Hcd, Hexit.
      reflexivity.
    + destruct (start_command_fork E c u us pgid w Ha Hcd Hexit)
        as (w' & [(_ & -> & _)|(_ & -> & _)]); reflexivity.
Qed.

Lemma sound_run_nodes E l :
  Forall shaped l -> within any_world sound_ending (run_nodes E l).
Proof.
  intros Hl. induction Hl as [|c l Hc Hl IH]; cbn [run_nodes].
  - now apply within_ret.
  - destruct (argc c =? 0) eqn:Hn; [now apply within_ret|].
    apply Z.eqb_neq in Hn.
    apply within_bind; [apply _|now apply sound_start_command|].
    intros child. apply within_bind; [apply _| |intros _; exact IH].
    destruct (background c =? 0); [|now apply within_ret].
    apply within_bind; [apply _|apply sound_waitpid|].
    intros _. now apply within_ret.
Qed.

Lemma sound_eval_line E s : within any_world sound_ending (eval_line E s).
Proof.
  intros w. rewrite eval_line_run.
  assert (H : within any_world sound_ending
                (_ ← polls (length s); run_list E (build s command_alloc))).
  { apply within_bind; [apply _| |].
    - generalize (length s). intros n.
      induction n as [|n IH]; cbn [polls]; [now apply within_ret|].
      apply within_bind; [apply _|apply sound_waitpid|]. intros _. exact IH.
    - intros _ w'. rewrite run_list_nodes.
      apply sound_run_nodes. apply build_shaped. }
  apply H.
Qed.

(** X1: whatever the line, the machine and the world, [eval_line] runs
    into no undefined behaviour (no read of a missing [argv] cell, no
    malformed vector handed to [execvp]), and when it ends the shell the
    exit status is 0. *)
Theorem eval_line_ends_soundly (E : machine) (s : list token) (w : world) :
  sound_ending (ending_of (eval_line E s w)) = true.
Proof. apply sound_eval_line. Qed.

Lemma eval_token_at_sep pre ws (bg : bool) :
  eval_token_at (pre, command_of ws) (if bg then amp else semi)
  = (pre ++ [command_with (ws, bg)], command_alloc).
Proof.
  unfold command_with. destruct bg, ws; reflexivity.
Qed.

Lemma line_of_at cmds last pre :
  fold_left eval_token_at (line_of cmds last) (pre, command_alloc)
  = (pre ++ (command_with <$> cmds), command_of last).
Proof.
  revert pre. induction cmds as [|[ws bg] cmds IH]; intros pre.
  - cbn [line_of fmap list_fmap]. rewrite app_nil_r.
    change command_alloc with (command_of []). now rewrite eval_words_at.
  - cbn [line_of]. rewrite eval_tokens_at_app.
    change command_alloc with (command_of []) at 1. rewrite eval_words_at.
    cbn [fold_left app]. rewrite eval_token_at_sep, IH.
    rewrite fmap_cons. now rewrite <- (assoc_L (++)).
Qed.

Lemma nodes_link pre last :
  next last = None ->
  set_next None <$> nodes (link pre last) = (set_next None <$> pre) ++ [last].
Proof.
  intros Hlast. induction pre as [|c pre IH].
  - destruct last as [n a p b nx]. simpl in Hlast. subst nx. reflexivity.
  - destruct c as [n a p b nx]. cbn [link]. unfold set_next at 2.
    cbn [argc argv pid background nodes]. rewrite fmap_cons, IH. reflexivity.
Qed.

Lemma command_with_next (cmds : list (list string * bool)) :
  set_next None <$> (command_with <$> cmds) = command_with <$> cmds.
Proof.
  induction cmds as [|[ws bg] cmds IH]; [reflexivity|].
  rewrite !fmap_cons, IH. f_equal. destruct ws; reflexivity.
Qed.

(** X2: a line of commands that each end in [;] or [&], followed by the
    words of a last command, is built into the list of exactly these
    commands in order: each holds its words as NULL-terminated [argv],
    [background] is 1 for those followed by [&] and 0 for the others, and
    the list ends with the command of the last words (the empty command
    when the line ends in [;] or [&]). *)
Theorem eval_line_builds_the_commands_written
    (cmds : list (list string * bool)) (last : list string) (w : world) :
  exists c1 w',
    eval_tokens (line_of cmds last) command_alloc w = Ret c1 w' /\
    set_next None <$> nodes c1 = (command_with <$> cmds) ++ [command_of last].
Proof.
  assert (Hp : forall n w0, exists w1, polls n w0 = Ret tt w1).
  { induction n as [|n IH]; intros w0; simpl; [eexists; reflexivity|].
    destruct (waitpid_nohang (-1) w0) as (r & w1 & Hw).
    destruct (IH w1) as (w2 & H2). exists w2.
    now rewrite (bind_ret_eq _ _ _ _ _ Hw). }
  destruct (Hp (length (line_of cmds last)) w) as (w' & Hw').
  exists (build (line_of cmds last) command_alloc), w'. split.
  - rewrite eval_tokens_build. now rewrite (bind_ret_eq _ _ _ _ _ Hw').
  - destruct (build_link (line_of cmds last) [] command_alloc eq_refl)
      as [Hb Hn].
    simpl link in Hb. rewrite Hb. rewrite nodes_link by exact Hn.
    rewrite line_of_at. simpl. now rewrite command_with_next.
Qed.

(** ** Tokens that are passed over *)

Lemma eval_token_passed c1 t : acted_upon t = false -> eval_token c1 t = c1.
Proof.
  unfold acted_upon, ends_command, eval_token. intros H.
  apply orb_false_iff in H. destruct H as [Hn H].
  rewrite Hn, H. apply orb_false_iff in H. destruct H as [_ Hb].
  now rewrite Hb.
Qed.

(** X3: [eval_line] acts upon words, [;] and [&] only.  Taking every other
    token out of a line (redirection and pipe operators, [&&], [||],
    parentheses, tokens of no known type) leaves the command list it
    builds unchanged. *)
Theorem other_tokens_are_passed_over (s : list token) (c1 : command) :
  build s c1 = build (filter (fun t => acted_upon t = true) s) c1.
Proof.
  revert c1. induction s as [|t s IH]; intros c1; [reflexivity|].
  rewrite filter_cons.
  destruct (decide (acted_upon t = true)) as [Ht|Ht].
  - unfold build. cbn [fold_left]. apply IH.
  - unfold build at 1. cbn [fold_left].
    rewrite eval_token_passed by now destruct (acted_upon t).
    apply IH.
Qed.

(** ** Lines of background commands *)

Lemma brisk_poll pid : within same_time prompt_ending (waitpid pid WNOHANG).
Proof.
  intros w. unfold waitpid.
  change (negb (Z.land WNOHANG WNOHANG =? 0)) with true.
  destruct (filter _ (children w)) as [|c0 cs]; [split; reflexivity|].
  destruct (first_exit _) as [[t q]|]; [|split; reflexivity].
  destruct (t <=? now w)%nat; split; reflexivity.
Qed.

Lemma brisk_polls n : within same_time prompt_ending (polls n).
Proof.
  induction n as [|n IH]; cbn [polls]; [now apply within_ret|].
  apply within_bind; [apply _|apply brisk_poll|]. intros _. exact IH.
Qed.

Lemma brisk_start_command E c pgid :
  shaped c -> argc c ≠ 0 ->
  within same_time prompt_ending (start_command E c pgid).
Proof.
  intros Hs Hn w.
  destruct (shaped_fields c Hs) as [_ [[H0 _]|(u & us & _ & Ha)]];
    [contradiction|].
  destruct (String.eqb u BUILTIN_CD) eqn:Hcd.
  - unfold start_command.
    rewrite (argv_at_first c u us Ha), Hcd, (argv_at_second c u us Ha).
    unfold mbind, M_bind, chdir.
    destruct (head us) as [path|]; [destruct (resolve E (cwd w) path)|];
      split; reflexivity.
  - destruct (String.eqb u BUILTIN_EXIT) eqn:Hexit.
    + unfold start_command. rewrite (argv_at_first c u us Ha), Hcd, Hexit.
      split; reflexivity.
    + unfold start_command. rewrite (argv_at_first c u us Ha), Hcd, Hexit.
      unfold mbind, M_bind, fork.
      destruct (length (children w) <? rlimit_nproc E)%nat;
        [|split; reflexivity].
      rewrite (start_command_child_words E c u us _ Ha).
      destruct (program E _ u (u :: us)) as [[l st]|]; split; reflexivity.
Qed.

Lemma brisk_run_nodes E l :
  Forall (fun c => shaped c /\ (argc c = 0 \/ background c ≠ 0)) l ->
  within same_time prompt_ending (run_nodes E l).
Proof.
  intros Hl. induction Hl as [|c l [Hc Hb] Hl IH]; cbn [run_nodes].
  - now apply within_ret.
  - destruct (argc c =? 0) eqn:Hn; [now apply within_ret|].
    apply Z.eqb_neq in Hn. destruct Hb as [Hb|Hb]; [contradiction|].
    apply Z.eqb_neq in Hb. rewrite Hb.
    apply within_bind; [apply _|now apply brisk_start_command|].
    intros child. apply within_bind; [apply _|now apply within_ret|].
    intros _. exact IH.
Qed.

Lemma shaped_command_with c : shaped (command_with c).
Proof.
  unfold command_with. apply shaped_background.
  exists c.1, 0. destruct c.1; reflexivity.
Qed.

(** X4: a line of which every command ends in [&] never makes the shell
    wait: whatever the programs are and however long they run, and
    whatever children the shell already has, [eval_line] returns (or
    leaves through [exit]) without sleeping in [waitpid], at the time at
    which it was called. *)
Theorem background_line_never_blocks
    (E : machine) (cmds : list (list string * bool)) (w : world) :
  Forall (fun c => c.2 = true) cmds ->
  now (world_of (eval_line E (line_of cmds []) w)) = now w /\
  prompt_ending (ending_of (eval_line E (line_of cmds []) w)) = true.
Proof.
  intros Hbg. rewrite eval_line_run.
  assert (H : within same_time prompt_ending
                (_ ← polls (length (line_of cmds []));
                 run_list E (build (line_of cmds []) command_alloc))).
  { apply within_bind; [apply _|apply brisk_polls|].
    intros _ w'. rewrite run_list_build, line_of_at. simpl app.
    apply brisk_run_nodes. apply Forall_app. split.
    - apply Forall_fmap. eapply Forall_impl; [exact Hbg|].
      intros [ws bg] Hc. simpl in Hc. subst bg. split.
      + apply shaped_command_with.
      + right. unfold command_with. destruct ws; discriminate.
    - constructor; [|constructor]. split; [apply shaped_alloc|now left]. }
  apply H.
Qed.

Lemma background_line_never_blocks_witness :
  now (world_of (eval_line a_machine
                   (line_of [(["yes"], true); (["sleep"; "5"], true)] [])
                   a_world)) = now a_world /\
  prompt_ending
    (ending_of (eval_line a_machine
                  (line_of [(["yes"], true); (["sleep"; "5"], true)] [])
                  a_world)) = true.
Proof.
  apply (background_line_never_blocks a_machine
           [(["yes"], true); (["sleep"; "5"], true)] a_world).
  repeat constructor.
Defined.

(** ** The builtins *)

(** X5: [cd] runs in the shell itself: [start_command] creates no process
    and lets no time pass.  When the first argument leads to a directory
    that becomes the working directory and the result is 0; when it does
    not, or when [cd] has no argument ([chdir(NULL)]), the working
    directory stays, the failure is reported with [perror] and the result
    is -1.  Arguments after the first are ignored. *)
Theorem cd_runs_in_the_shell
    (E : machine) (args : list string) (pgid : Z) (w : world) :
  exists r w',
    start_command E (command_of ("cd" :: args)) pgid w = Ret r w' /\
    children w' = children w /\ next_pid w' = next_pid w /\
    now w' = now w /\
    match head args ≫= resolve E (cwd w) with
    | Some dir =>
        r = 0 /\ cwd w' = dir /\
        trace w' = trace w ++ [Ev_chdir (head args) 0]
    | None =>
        r = -1 /\ cwd w' = cwd w /\
        trace w' = trace w ++ [Ev_chdir (head args) (-1);
                               Ev_perror "failed to change cwd: "]
    end.
Proof.
  unfold start_command.
  rewrite (argv_at_first (command_of ("cd" :: args)) "cd" args eq_refl).
  rewrite (argv_at_second (command_of ("cd" :: args)) "cd" args eq_refl).
  change (String.eqb "cd" BUILTIN_CD) with true. cbv iota.
  unfold mbind at 1, M_bind at 1, chdir.
  destruct (head args) as [path|]; simpl.
  - destruct (resolve E (cwd w) path) as [dir|]; simpl.
    + eexists _, _. repeat split.
    + eexists _, _. repeat split. simpl. now rewrite <- (assoc_L (++)).
  - eexists _, _. repeat split. simpl. now rewrite <- (assoc_L (++)).
Qed.









(** ** Polls and waits *)

Lemma first_exit_spec l t p :
  first_exit l = Some (t, p) -> p ∈ l /\ p_exit_at p = Some t.
Proof.
  revert t p. induction l as [|q l IH]; intros t p; cbn [first_exit].
  - discriminate.
  - destruct (p_exit_at q) as [tq|] eqn:Hq.
    + destruct (first_exit l) as [[t' p']|].
      * destruct (tq <=? t')%nat; intros [= <- <-].
        -- split; [left|exact Hq].
        -- destruct (IH t' p' eq_refl). split; [now right|assumption].
      * intros [= <- <-]. split; [left|exact Hq].
    + intros H. destruct (IH t p H). split; [now right|assumption].
Qed.

Lemma reap_keeps_others (l : list proc) p q :
  NoDup (p_pid <$> l) -> p ∈ l -> q ∈ l -> q ≠ p -> q ∈ reap p l.
Proof.
  intros Hnd Hp Hq Hne. unfold reap. apply list_elem_of_filter. split; [|exact Hq].
  intros Heq. apply Hne.
  apply list_elem_of_lookup in Hp as [i Hi].
  apply list_elem_of_lookup in Hq as [j Hj].
  assert (Hij : j = i).
  { eapply NoDup_lookup; [exact Hnd| |].
    - rewrite list_lookup_fmap, Hj. reflexivity.
    - rewrite list_lookup_fmap, Hi. simpl. now rewrite Heq. }
  subst j. congruence.
Qed.

Lemma reap_length (l : list proc) p :
  NoDup (p_pid <$> l) -> (length l <= length (reap p l) + 1)%nat.
Proof.
  unfold reap. induction l as [|q l IH]; intros Hnd; [simpl; lia|].
  rewrite fmap_cons in Hnd. apply NoDup_cons in Hnd as [Hq Hnd].
  rewrite filter_cons.
  destruct (decide (p_pid q ≠ p_pid p)) as [Hne|He].
  - simpl. specialize (IH Hnd). lia.
  - assert (Heq : p_pid q = p_pid p) by (destruct (decide (p_pid q = p_pid p)); [assumption|contradiction]).
    assert (Hall : filter (fun q0 => p_pid q0 ≠ p_pid p) l = l).
    { clear IH Hnd. induction l as [|r l IHl]; [reflexivity|].
      rewrite filter_cons.
      destruct (decide (p_pid r ≠ p_pid p)) as [_|Hr].
      - f_equal. apply IHl. intros Hin. apply Hq. rewrite fmap_cons. now right.
      - exfalso. apply Hq. rewrite fmap_cons.
        assert (p_pid r = p_pid p) by (destruct (decide (p_pid r = p_pid p)); [assumption|contradiction]).
        rewrite Heq, <- H. left. }
    rewrite Hall. simpl. lia.
Qed.

Lemma reap_NoDup (l : list proc) p :
  NoDup (p_pid <$> l) -> NoDup (p_pid <$> reap p l).
Proof.
  unfold reap. intros Hnd.
  apply (sublist_NoDup _ (p_pid <$> l)); [exact Hnd|].
  apply fmap_sublist, sublist_filter.
Qed.

Lemma poll_step w :
  NoDup (p_pid <$> children w) ->
  exists r w',
    waitpid (-1) WNOHANG w = Ret r w' /\
    now w' = now w /\
    NoDup (p_pid <$> children w') /\
    (forall p, p ∈ children w' -> p ∈ children w) /\
    (forall p, p ∈ children w -> alive (now w) p = true -> p ∈ children w') /\
    (length (children w) <= length (children w') + 1)%nat.
Proof.
  intros Hnd. unfold waitpid.
  change (negb (Z.land WNOHANG WNOHANG =? 0)) with true.
  assert (Hsame : forall e, let w' := log e w in
    now w' = now w /\ NoDup (p_pid <$> children w') /\
    (forall p, p ∈ children w' -> p ∈ children w) /\
    (forall p, p ∈ children w -> alive (now w) p = true -> p ∈ children w') /\
    (length (children w) <= length (children w') + 1)%nat).
  { intros e. simpl. repeat split; auto. lia. }
  destruct (filter _ (children w)) as [|c0 cs] eqn:Hf;
    [eexists _, _; split; [reflexivity|apply Hsame]|].
  destruct (first_exit (c0 :: cs)) as [[t q]|] eqn:Hfe;
    [|eexists _, _; split; [reflexivity|apply Hsame]].
  destruct (t <=? now w)%nat eqn:Ht;
    [|eexists _, _; split; [reflexivity|apply Hsame]].
  apply first_exit_spec in Hfe as [Hq Hqt].
  rewrite <- Hf in Hq. apply list_elem_of_filter in Hq as [_ Hq].
  eexists _, _. split; [reflexivity|]. simpl. repeat split.
  - now apply reap_NoDup.
  - intros p Hp. unfold reap in Hp. now apply list_elem_of_filter in Hp as [_ Hp].
  - intros p Hp Halive. apply reap_keeps_others; auto.
    intros ->. unfold alive in Halive. rewrite Hqt in Halive.
    apply Nat.leb_le in Ht. apply Nat.ltb_lt in Halive. lia.
  - now apply reap_length.
Qed.

(** X7: the loop of [eval_line] over the tokens never waits and reaps
    nothing but zombies.  In a shell whose children have distinct process
    IDs it returns the list built from the tokens at the time at which it
    was called; every child left in the table was there before, every
    child still running then is still there, and at most one child per
    token has gone. *)
Theorem token_loop_reaps_only_zombies
    (s : list token) (c1 : command) (w : world) :
  NoDup (p_pid <$> children w) ->
  exists w',
    eval_tokens s c1 w = Ret (fold_left eval_token s c1) w' /\
    now w' = now w /\
    (forall p, p ∈ children w' -> p ∈ children w) /\
    (forall p, p ∈ children w -> alive (now w) p = true -> p ∈ children w') /\
    (length (children w) <= length (children w') + length s)%nat.
Proof.
  revert c1 w. induction s as [|t s IH]; intros c1 w Hnd.
  - exists w. cbn [eval_tokens fold_left length]. repeat split; auto. lia.
  - cbn [eval_tokens fold_left length].
    destruct (poll_step w Hnd) as (r & w1 & Hw & Hn1 & Hnd1 & Hin1 & Hal1 & Hl1).
    destruct (IH (eval_token c1 t) w1 Hnd1) as (w' & He & Hn & Hin & Hal & Hl).
    exists w'. rewrite (bind_ret_eq _ _ _ _ _ Hw). split; [exact He|].
    split; [congruence|]. split; [auto|]. split.
    + intros p Hp Halive. apply Hal; [now apply Hal1|]. now rewrite Hn1.
    + lia.
Qed.

Lemma token_loop_reaps_only_zombies_witness :
  exists w',
    eval_tokens [word "echo"; word "hi"] command_alloc
      (World 3 102 [Proc 100 (Some 2%nat) 0; Proc 101 (Some 9%nat) 0]
             "/home" 50 50 [] [])
    = Ret (fold_left eval_token [word "echo"; word "hi"] command_alloc) w' /\
    now w' = 3%nat /\
    (forall p, p ∈ children w' ->
       p ∈ [Proc 100 (Some 2%nat) 0; Proc 101 (Some 9%nat) 0]) /\
    (forall p, p ∈ [Proc 100 (Some 2%nat) 0; Proc 101 (Some 9%nat) 0] ->
       alive 3 p = true -> p ∈ children w') /\
    (2 <= length (children w') + 2)%nat.
Proof.
  apply (token_loop_reaps_only_zombies [word "echo"; word "hi"] command_alloc
           (World 3 102 [Proc 100 (Some 2%nat) 0; Proc 101 (Some 9%nat) 0]
                  "/home" 50 50 [] [])).
  simpl. apply NoDup_cons. split; [|apply NoDup_singleton].
  intros H. apply list_elem_of_singleton in H. discriminate.
Defined.

(** X8: in a shell that has no child and may create one, a command that is
    not a builtin and whose program is found is run to its end: [run_list]
    forks once, sleeps in [waitpid] for as long as the program runs, is
    handed its exit status, and leaves no child behind; when the program
    runs for ever, so does the wait. *)
Theorem foreground_command_is_waited_for
    (E : machine) (u : string) (us : list string)
    (lifetime : option nat) (status : Z) (w : world) :
  String.eqb u BUILTIN_CD = false ->
  String.eqb u BUILTIN_EXIT = false ->
  children w = [] ->
  (0 < rlimit_nproc E)%nat ->
  program E (Z.pos (next_pid w)) u (u :: us) = Some (lifetime, status) ->
  run_list E (command_of (u :: us)) w =
    match lifetime with
    | Some d =>
        Ret tt
          (World (now w + d) (Pos.succ (next_pid w)) [] (cwd w) (sh_pgid w)
                 (tty_pgid w) (ignored w)
                 (trace w ++
                  [Ev_fork (Z.pos (next_pid w));
                   Ev_child_execvp (Z.pos (next_pid w)) u (u :: us) true;
                   Ev_waitpid (-1) 0 (Z.pos (next_pid w)) (Some status)]))
    | None =>
        Hung
          (World (now w) (Pos.succ (next_pid w))
                 [Proc (Z.pos (next_pid w)) None status] (cwd w) (sh_pgid w)
                 (tty_pgid w) (ignored w)
                 (trace w ++
                  [Ev_fork (Z.pos (next_pid w));
                   Ev_child_execvp (Z.pos (next_pid w)) u (u :: us) true]))
    end.
Proof.
  intros Hcd Hexit Hch Hlim Hprog.
  rewrite run_list_one.
  assert (Hstart : start_command E (command_of (u :: us)) 42 w =
    Ret (-1)
      (World (now w) (Pos.succ (next_pid w))
             [Proc (Z.pos (next_pid w))
                   ((fun d => (now w + d)%nat) <$> lifetime) status]
             (cwd w) (sh_pgid w) (tty_pgid w) (ignored w)
             (trace w ++
              [Ev_fork (Z.pos (next_pid w));
               Ev_child_execvp (Z.pos (next_pid w)) u (u :: us) true]))).
  { unfold start_command.
    rewrite (argv_at_first (command_of (u :: us)) u us eq_refl), Hcd, Hexit.
    unfold mbind, M_bind, fork. rewrite Hch. cbn [length].
    apply Nat.ltb_lt in Hlim. rewrite Hlim.
    rewrite (start_command_child_words E (command_of (u :: us)) u us _
               eq_refl), Hprog.
    reflexivity. }
  rewrite (bind_ret_eq _ _ _ _ _ Hstart).
  unfold mbind, M_bind, waitpid.
  cbn [children now next_pid cwd sh_pgid tty_pgid ignored trace].
  rewrite filter_cons, filter_nil.
  match goal with |- context [decide ?P] =>
    destruct (decide P) as [_|Hno]; [|exfalso; apply Hno; reflexivity] end.
  cbn [first_exit p_exit_at].
  destruct lifetime as [d|]; cbn [fmap option_fmap option_map].
  - change (negb (Z.land 0 WNOHANG =? 0)) with false.
    assert (Hreap : reap (Proc (Z.pos (next_pid w)) (Some (now w + d)%nat) status)
              [Proc (Z.pos (next_pid w)) (Some (now w + d)%nat) status] = []).
    { unfold reap. rewrite filter_cons, filter_nil.
      match goal with |- context [decide ?P] =>
        destruct (decide P) as [Hne|_]; [contradiction|reflexivity] end. }
    destruct (now w + d <=? now w)%nat eqn:Hd.
    + apply Nat.leb_le in Hd. assert (d = 0)%nat as -> by lia.
      unfold waited.
      cbn [children now next_pid cwd sh_pgid tty_pgid ignored trace
           p_pid p_status].
      rewrite Hreap, Nat.add_0_r, <- (assoc_L (++)). reflexivity.
    + unfold waited.
      cbn [children now next_pid cwd sh_pgid tty_pgid ignored trace
           p_pid p_status].
      rewrite Hreap, <- (assoc_L (++)). reflexivity.
  - reflexivity.
Qed.

Lemma foreground_command_is_waited_for_witness :
  run_list a_machine (command_of ["sleep"; "5"]) a_world =
    Ret tt
      (World (now a_world + 5) (Pos.succ (next_pid a_world)) []
             (cwd a_world) (sh_pgid a_world) (tty_pgid a_world)
             (ignored a_world)
             (trace a_world ++
              [Ev_fork (Z.pos (next_pid a_world));
               Ev_child_execvp (Z.pos (next_pid a_world)) "sleep"
                 ["sleep"; "5"] true;
               Ev_waitpid (-1) 0 (Z.pos (next_pid a_world)) (Some 0)])).
Proof.
  apply (foreground_command_is_waited_for a_machine "sleep" ["5"]
           (Some 5%nat) 0 a_world); try reflexivity.
  simpl. lia.
Defined.

(** ** The read loop *)

#[local] Opaque BUFSIZ.

Lemma read_loop_step ev quiet st buf np :
  read_loop ev quiet st false buf np =
    match read_into buf st with
    | Read_stop error =>
        _ ← show_prompt np quiet;
        _ ← (if error then perror "sh61" else mret tt);
        mret 0
    | Read_undefined => _ ← show_prompt np quiet; fault
    | Read_next st' eof' buf' =>
        if complete buf' then
          _ ← show_prompt np quiet;
          _ ← ev buf';
          _ ← waitpid (-1) WNOHANG;
          read_loop ev quiet st' eof' [] true
        else
          _ ← show_prompt np quiet;
          _ ← waitpid (-1) WNOHANG;
          read_loop ev quiet st' eof' buf' (np && quiet)
    end.
Proof.
  simp read_loop. unfold inspect.
  assert (H : forall r (Hr : read_into buf st = r),
    read_loop_unfold_clause_2 ev quiet st buf (exist _ r Hr) np =
    match r with
    | Read_stop error =>
        _ ← show_prompt np quiet;
        _ ← (if error then perror "sh61" else mret tt);
        mret 0
    | Read_undefined => _ ← show_prompt np quiet; fault
    | Read_next st' eof' buf' =>
        if complete buf' then
          _ ← show_prompt np quiet;
          _ ← ev buf';
          _ ← waitpid (-1) WNOHANG;
          read_loop ev quiet st' eof' [] true
        else
          _ ← show_prompt np quiet;
          _ ← waitpid (-1) WNOHANG;
          read_loop ev quiet st' eof' buf' (np && quiet)
    end).
  { intros r Hr. destruct r as [error| |st' eof' buf']; simp read_loop;
      try reflexivity.
    unfold inspect.
    assert (H : forall c (Hc : complete buf' = c),
      read_loop_unfold_clause_2_clause_3 ev quiet st buf st' eof' buf'
        (exist _ c Hc) Hr np =
      if c then
        _ ← show_prompt np quiet;
        _ ← ev buf';
        _ ← waitpid (-1) WNOHANG;
        read_loop ev quiet st' eof' [] true
      else
        _ ← show_prompt np quiet;
        _ ← waitpid (-1) WNOHANG;
        read_loop ev quiet st' eof' buf' (np && quiet)).
    { intros c Hc. destruct c; simp read_loop; reflexivity. }
    apply (H _ eq_refl). }
  apply (H _ eq_refl).
Qed.

Lemma read_loop_eof ev quiet st buf np :
  read_loop ev quiet st true buf np = mret 0.
Proof. now simp read_loop. Qed.

Lemma gets_line n l st :
  Forall (fun a => a ≠ newline /\ a ≠ NUL) l ->
  (length l < n)%nat ->
  gets n ((Byte <$> l ++ [newline]) ++ st) = (l ++ [newline], st, true).
Proof.
  revert n. induction l as [|a l IH]; intros n Hl Hn.
  - destruct n as [|n]; [simpl in Hn; lia|]. reflexivity.
  - destruct n as [|n]; [simpl in Hn; lia|].
    apply Forall_cons in Hl as [[Ha _] Hl].
    cbn [app fmap list_fmap gets].
    replace (Ascii.eqb a newline) with false
      by (symmetry; now apply Ascii.eqb_neq).
    change (list_fmap ascii input Byte (l ++ [newline]))
      with (Byte <$> l ++ [newline]).
    rewrite IH by (simpl in Hn; auto; lia). reflexivity.
Qed.


Lemma gets_count l st :
  Forall (fun a => a ≠ newline) l ->
  gets (length l) ((Byte <$> l) ++ st) = (l, st, true).
Proof.
  induction l as [|a l IH]; intros Hl; [reflexivity|].
  apply Forall_cons in Hl as [Ha Hl].
  cbn [length app fmap list_fmap gets].
  replace (Ascii.eqb a newline) with false
    by (symmetry; now apply Ascii.eqb_neq).
  change (list_fmap ascii input Byte l) with (Byte <$> l).
  now rewrite IH.
Qed.

Lemma c_str_plain l : Forall (fun a => a ≠ NUL) l -> c_str l = l.
Proof.
  induction 1 as [|a l Ha Hl IH]; [reflexivity|]. simpl.
  replace (Ascii.eqb a NUL) with false by (symmetry; now apply Ascii.eqb_neq).
  now rewrite IH.
Qed.

Lemma plain_no_NUL l :
  Forall (fun a => a ≠ newline /\ a ≠ NUL) l -> Forall (fun a => a ≠ NUL) l.
Proof. intros H. eapply Forall_impl; [exact H|]. simpl. tauto. Qed.

Lemma complete_newline l : complete (l ++ [newline]) = true.
Proof.
  unfold complete. rewrite last_snoc. apply orb_true_r.
Qed.


Lemma read_into_line l st :
  plain l ->
  read_into [] ((Byte <$> l ++ [newline]) ++ st)
  = Read_next st false (l ++ [newline]).
Proof.
  intros [Hn Hl]. unfold read_into. pose proof BUFSIZ_large as HB.
  replace (BUFSIZ <=? length (@nil ascii))%nat with false
    by (symmetry; apply Nat.leb_gt; simpl; lia).
  cbn [length]. rewrite Nat.sub_0_r. unfold fgets.
  assert (Hhead : exists a rest,
    (Byte <$> l ++ [newline]) ++ st = Byte a :: rest).
  { destruct l; simpl; eauto. }
  destruct Hhead as (a & rest & Hhead). rewrite Hhead, <- Hhead.
  rewrite gets_line by (auto; lia). cbn [app].
  rewrite c_str_plain; [reflexivity|].
  apply Forall_app. split; [now apply plain_no_NUL|].
  repeat constructor. discriminate.
Qed.

Lemma read_loop_line ev quiet l st np w :
  plain l ->
  read_loop ev quiet ((Byte <$> l ++ [newline]) ++ st) false [] np w =
    (_ ← show_prompt np quiet;
     _ ← ev (l ++ [newline]);
     _ ← waitpid (-1) WNOHANG;
     read_loop ev quiet st false [] true) w.
Proof.
  intros Hl. rewrite read_loop_step, read_into_line by exact Hl.
  now rewrite complete_newline.
Qed.

Lemma stream_of_cons l lines :
  stream_of (l :: lines) = (Byte <$> l ++ [newline]) ++ stream_of lines.
Proof. unfold stream_of. rewrite fmap_cons. cbn [concat]. now rewrite fmap_app. Qed.

Lemma read_loop_lines ev quiet lines st w :
  Forall plain lines ->
  read_loop ev quiet (stream_of lines ++ st) false [] true w =
    run_lines ev quiet lines (read_loop ev quiet st false [] true) w.
Proof.
  intros Hl. revert w. induction Hl as [|l lines Hp Hl IH]; intros w.
  - reflexivity.
  - rewrite stream_of_cons, <- (assoc_L (++)).
    rewrite read_loop_line by exact Hp. cbn [run_lines].
    apply bind_ext. intros _ w1. apply bind_ext. intros _ w2.
    apply bind_ext. intros _ w3. apply IH.
Qed.

(** X9: a command file of lines that each end in a newline, fit the buffer
    and hold no NUL is read line by line: for each line in turn the loop
    prompts (unless quiet), evaluates exactly that line with its newline
    and polls once; at the end of the file it prompts once more and
    returns 0. *)
Theorem read_loop_evaluates_each_line
    (ev : list ascii -> M unit) (quiet : bool) (lines : list (list ascii))
    (w : world) :
  Forall plain lines ->
  read_loop ev quiet (stream_of lines) false [] true w =
    run_lines ev quiet lines (_ ← show_prompt true quiet; mret 0) w.
Proof.
  intros Hl.
  rewrite <- (app_nil_r (stream_of lines)).
  rewrite read_loop_lines by exact Hl.
  revert w. induction lines as [|l lines IH]; intros w.
  - cbn [run_lines]. rewrite read_loop_step. reflexivity.
  - cbn [run_lines]. apply Forall_cons in Hl as [_ Hl].
    apply bind_ext. intros _ w1. apply bind_ext. intros _ w2.
    apply bind_ext. intros _ w3. now apply IH.
Qed.

Lemma read_loop_evaluates_each_line_witness :
  read_loop (fun s => eval_line a_machine [word (String.string_of_list_ascii s)])
    false
    (stream_of [String.list_ascii_of_string "true"; String.list_ascii_of_string "false"])
    false [] true a_world =
  run_lines (fun s => eval_line a_machine [word (String.string_of_list_ascii s)])
    false [String.list_ascii_of_string "true"; String.list_ascii_of_string "false"]
    (_ ← show_prompt true false; mret 0) a_world.
Proof.
  apply (read_loop_evaluates_each_line
           (fun s => eval_line a_machine [word (String.string_of_list_ascii s)])
           false
           [String.list_ascii_of_string "true"; String.list_ascii_of_string "false"]
           a_world).
  repeat constructor; try discriminate; apply Nat.ltb_lt; vm_compute;
    reflexivity.
Defined.



(** X11: a line too long for the buffer is cut.  When the file goes on
    with [BUFSIZ - 1] characters without a newline or a NUL, the loop
    evaluates these characters as a line of their own and reads on from
    the character after them, as at the start of a line. *)
Theorem long_line_is_cut_at_the_buffer_size
    (ev : list ascii -> M unit) (quiet : bool) (chunk : list ascii)
    (st : list input) (needprompt : bool) (w : world) :
  length chunk = (BUFSIZ - 1)%nat ->
  Forall (fun a => a ≠ newline /\ a ≠ NUL) chunk ->
  read_loop ev quiet ((Byte <$> chunk) ++ st) false [] needprompt w =
    (_ ← show_prompt needprompt quiet;
     _ ← ev chunk;
     _ ← waitpid (-1) WNOHANG;
     read_loop ev quiet st false [] true) w.
Proof.
  intros Hlen Hc. rewrite read_loop_step.
  assert (Hread : read_into [] ((Byte <$> chunk) ++ st)
                  = Read_next st false chunk).
  { unfold read_into. pose proof BUFSIZ_large as HB.
    replace (BUFSIZ <=? length (@nil ascii))%nat with false
      by (symmetry; apply Nat.leb_gt; simpl; lia).
    cbn [length]. rewrite Nat.sub_0_r. unfold fgets.
    assert (Hhead : exists a rest, (Byte <$> chunk) ++ st = Byte a :: rest).
    { destruct chunk; [simpl in Hlen; lia|]. simpl. eauto. }
    destruct Hhead as (a & rest & Hhead). rewrite Hhead, <- Hhead.
    rewrite <- Hlen. rewrite gets_count.
    - cbn [app]. rewrite c_str_plain by now apply plain_no_NUL. reflexivity.
    - eapply Forall_impl; [exact Hc|]. simpl. tauto. }
  rewrite Hread.
  assert (Hfull : complete chunk = true).
  { unfold complete. apply orb_true_iff. left. now apply Nat.eqb_eq. }
  now rewrite Hfull.
Qed.

Lemma long_line_is_cut_at_the_buffer_size_witness :
  read_loop (fun _ => mret tt) true
    ((Byte <$> replicate (BUFSIZ - 1) "a"%char) ++ [Byte "b"%char])
    false [] true a_world =
    (_ ← show_prompt true true;
     _ ← mret tt;
     _ ← waitpid (-1) WNOHANG;
     read_loop (fun _ => mret tt) true [Byte "b"%char] false [] true) a_world.
Proof.
  apply (long_line_is_cut_at_the_buffer_size (fun _ => mret tt) true
           (replicate (BUFSIZ - 1) "a"%char) [Byte "b"%char] true a_world).
  - apply length_replicate.
  - apply Forall_replicate. split; discriminate.
Defined.

(** X12: reads that fail.  At the start of a line a read interrupted by a
    signal (EINTR) is not the end of the input: the loop polls and reads
    again.  Any other error ends the loop after [perror("sh61")]: what is
    left of the file is not read, and [main] still returns 0. *)
Theorem failed_reads
    (ev : list ascii -> M unit) (quiet : bool) (st : list input)
    (needprompt : bool) (w : world) :
  read_loop ev quiet (Interrupted :: st) false [] needprompt w =
    (_ ← show_prompt needprompt quiet;
     _ ← waitpid (-1) WNOHANG;
     read_loop ev quiet st false [] (needprompt && quiet)) w
  /\
  read_loop ev quiet (Broken :: st) false [] needprompt w =
    (_ ← show_prompt needprompt quiet;
     _ ← perror "sh61";
     mret 0) w.
Proof.
  assert (Hsz : (BUFSIZ <=? length (@nil ascii))%nat = false).
  { pose proof BUFSIZ_large. apply Nat.leb_gt. simpl. lia. }
  assert (Hc : complete [] = false).
  { unfold complete. apply orb_false_iff. split; [|reflexivity].
    pose proof BUFSIZ_large. apply Nat.eqb_neq. simpl. lia. }
  split; rewrite read_loop_step; unfold read_into; rewrite Hsz;
    unfold fgets; cbn [c_str]; [now rewrite Hc|reflexivity].
Qed.

Lemma gets_failing n l i st :
  Forall (fun a => a ≠ newline) l ->
  (length l < n)%nat ->
  i = Interrupted \/ i = Broken ->
  gets n ((Byte <$> l) ++ i :: st) = (l, i :: st, false).
Proof.
  intros Hl Hn Hi. revert n Hn. induction Hl as [|a l Ha Hl IH]; intros n Hn.
  - destruct n as [|n]; [simpl in Hn; lia|].
    destruct Hi as [-> | ->]; reflexivity.
  - destruct n as [|n]; [simpl in Hn; lia|].
    cbn [app fmap list_fmap gets].
    replace (Ascii.eqb a newline) with false
      by (symmetry; now apply Ascii.eqb_neq).
    change (list_fmap ascii input Byte l) with (Byte <$> l).
    rewrite IH by (simpl in Hn; lia). reflexivity.
Qed.

Lemma fgets_failing n l st :
  Forall (fun a => a ≠ newline) l ->
  (length l + 1 < n)%nat ->
  fgets n ((Byte <$> l) ++ Interrupted :: st) = (Null_eintr, st, false) /\
  fgets n ((Byte <$> l) ++ Broken :: st) = (Null_error, st, false).
Proof.
  intros Hl Hn. destruct l as [|a l]; [now split|].
  assert (H : forall i, i = Interrupted \/ i = Broken ->
    fgets n ((Byte <$> a :: l) ++ i :: st) =
    let '(chars, rest, full) := gets (n - 1) ((Byte <$> a :: l) ++ i :: st) in
    if full then (Got chars, rest, false)
    else match rest with
         | [] => (Got chars, [], true)
         | Interrupted :: rest' => (Null_eintr, rest', false)
         | Broken :: rest' => (Null_error, rest', false)
         | Byte _ :: _ => (Got chars, rest, false)
         end) by reflexivity.
  rewrite !H by auto. rewrite !gets_failing by (auto; lia). now split.
Qed.

(** X16: a read that fails after it has taken characters loses them.
    When the file delivers characters with no newline and then a read
    fails, nothing of these characters reaches the buffer: after EINTR the
    loop polls and reads on with the string it had before, and after any
    other error it ends after [perror("sh61")] and [main] returns 0. *)
Theorem failed_read_loses_what_it_stored
    (ev : list ascii -> M unit) (quiet : bool) (buf chars : list ascii)
    (st : list input) (needprompt : bool) (w : world) :
  Forall (fun a => a ≠ NUL) buf ->
  complete buf = false ->
  Forall (fun a => a ≠ newline) chars ->
  (length buf + length chars + 1 < BUFSIZ)%nat ->
  read_loop ev quiet ((Byte <$> chars) ++ Interrupted :: st) false buf
    needprompt w =
    (_ ← show_prompt needprompt quiet;
     _ ← waitpid (-1) WNOHANG;
     read_loop ev quiet st false buf (needprompt && quiet)) w
  /\
  read_loop ev quiet ((Byte <$> chars) ++ Broken :: st) false buf
    needprompt w =
    (_ ← show_prompt needprompt quiet;
     _ ← perror "sh61";
     mret 0) w.
Proof.
  intros Hbuf Hc Hchars Hlen.
  assert (Hsz : (BUFSIZ <=? length buf)%nat = false).
  { apply Nat.leb_gt. lia. }
  destruct (fgets_failing (BUFSIZ - length buf) chars st Hchars)
    as [Heintr Herror]; [lia|].
  split; rewrite read_loop_step; unfold read_into; rewrite Hsz.
  - rewrite Heintr, c_str_plain by exact Hbuf. now rewrite Hc.
  - now rewrite Herror.
Qed.

Lemma failed_read_loses_what_it_stored_witness :
  read_loop (fun _ => mret tt) true
    ((Byte <$> ["x"%char]) ++ Interrupted :: [Byte "y"%char]) false [] true
    a_world =
    (_ ← show_prompt true true;
     _ ← waitpid (-1) WNOHANG;
     read_loop (fun _ => mret tt) true [Byte "y"%char] false []
       (true && true)) a_world
  /\
  read_loop (fun _ => mret tt) true
    ((Byte <$> ["x"%char]) ++ Broken :: [Byte "y"%char]) false [] true
    a_world =
    (_ ← show_prompt true true;
     _ ← perror "sh61";
     mret 0) a_world.
Proof.
  apply (failed_read_loses_what_it_stored (fun _ => mret tt) true []
           ["x"%char] [Byte "y"%char] true a_world).
  - constructor.
  - unfold complete. apply orb_false_iff. split; [|reflexivity].
    apply Nat.eqb_neq. pose proof BUFSIZ_large. simpl. lia.
  - repeat constructor. discriminate.
  - apply Nat.ltb_lt. vm_compute. reflexivity.
Defined.

Lemma read_loop_induction (P : list input -> bool -> list ascii -> Prop) :
  (forall st eof buf,
     (forall st' eof' buf',
        (read_measure st' buf' < read_measure st buf)%nat -> P st' eof' buf') ->
     P st eof buf) ->
  forall st eof buf, P st eof buf.
Proof.
  intros Hstep.
  assert (H : forall n st eof buf, (read_measure st buf < n)%nat -> P st eof buf).
  { induction n as [|n IH]; intros st eof buf Hn; [lia|].
    apply Hstep. intros st' eof' buf' Hlt. apply IH. lia. }
  intros st eof buf. apply (H (S (read_measure st buf))). lia.
Qed.

Lemma gets_stops n st :
  match (gets n st).1.2 with
  | Byte _ :: _ => (gets n st).2 = true
  | _ => True
  end.
Proof.
  revert st. induction n as [|n IH]; intros st; cbn [gets].
  - simpl. now destruct st as [|[a| |] st].
  - destruct st as [|[a| |] st]; simpl; auto.
    destruct (Ascii.eqb a newline); [simpl; now destruct st as [|[b| |] st]|].
    specialize (IH st). destruct (gets n st) as [[l r] full]. exact IH.
Qed.

Lemma read_into_room buf st :
  (length buf + 1 < BUFSIZ)%nat ->
  match read_into buf st with
  | Read_stop _ => True
  | Read_undefined => False
  | Read_next _ _ buf' =>
      complete buf' = false -> (length buf' + 1 < BUFSIZ)%nat
  end.
Proof.
  intros Hbuf. unfold read_into.
  replace (BUFSIZ <=? length buf)%nat with false
    by (symmetry; apply Nat.leb_gt; lia).
  assert (Hlen : forall l, (length l < BUFSIZ)%nat -> complete (c_str l) = false ->
                 (length (c_str l) + 1 < BUFSIZ)%nat).
  { intros l Hl Hc. unfold complete in Hc. apply orb_false_iff in Hc as [Hc _].
    apply Nat.eqb_neq in Hc. pose proof (c_str_length l). lia. }
  unfold fgets. destruct st as [|[a| |] st]; [exact I| |apply Hlen; lia|exact I].
  pose proof (gets_spec (BUFSIZ - length buf - 1) (Byte a :: st)) as [Hn _].
  destruct (gets (BUFSIZ - length buf - 1) (Byte a :: st))
    as [[chars rest] full].
  cbn [fst snd] in Hn.
  assert (Hgot : complete (c_str (buf ++ chars)) = false ->
                 (length (c_str (buf ++ chars)) + 1 < BUFSIZ)%nat).
  { apply Hlen. rewrite length_app. lia. }
  destruct full; [exact Hgot|].
  destruct rest as [|[b| |] rest']; [exact Hgot|exact Hgot|apply Hlen; lia|exact I].
Qed.

Lemma sound_show_prompt np quiet :
  within any_world sound_ending (show_prompt np quiet).
Proof.
  intros w. unfold show_prompt. destruct (np && negb quiet); now split.
Qed.

Lemma ends_with_0_bind {A} (m : M A) (f : A -> M Z) :
  within any_world sound_ending m ->
  (forall a w, ends_with_0 (f a w)) ->
  forall w, ends_with_0 ((m ≫= f) w).
Proof.
  intros Hm Hf w. destruct (Hm w) as [_ Hok]. unfold mbind, M_bind.
  destruct (m w) as [a w1|st w1|w1|w1]; simpl in Hok; simpl.
  - apply Hf.
  - now apply Z.eqb_eq.
  - exact I.
  - discriminate.
Qed.

Lemma read_loop_ends_with_0 ev quiet st eof buf np :
  (forall l, within any_world sound_ending (ev l)) ->
  (length buf + 1 < BUFSIZ)%nat ->
  forall w, ends_with_0 (read_loop ev quiet st eof buf np w).
Proof.
  intros Hev. revert np. pattern st, eof, buf.
  apply read_loop_induction. clear st eof buf.
  intros st eof buf IH np Hbuf.
  destruct eof; [rewrite read_loop_eof; reflexivity|].
  rewrite read_loop_step.
  pose proof (read_into_room buf st Hbuf) as Hroom.
  destruct (read_into buf st) as [error| |st' eof' buf'] eqn:Hr;
    [|contradiction|].
  - apply ends_with_0_bind; [apply sound_show_prompt|]. intros _.
    apply ends_with_0_bind; [|reflexivity].
    destruct error; [intros w; now split|now apply within_ret].
  - destruct (read_into_decreases buf st st' eof' buf' Hr) as [Hd1 Hd2].
    destruct (complete buf') eqn:Hc.
    + apply ends_with_0_bind; [apply sound_show_prompt|]. intros _.
      apply ends_with_0_bind; [apply Hev|]. intros _.
      apply ends_with_0_bind; [apply sound_waitpid|]. intros _.
      apply IH; [exact Hd1|].
      pose proof BUFSIZ_large. simpl. lia.
    + apply ends_with_0_bind; [apply sound_show_prompt|]. intros _.
      apply ends_with_0_bind; [apply sound_waitpid|]. intros _.
      apply IH; [now apply Hd2|now apply Hroom].
Qed.

(** X13: the exit status of the shell.  Whatever the command line, the
    command file and the standard input, failing reads included, [main]
    runs into no undefined behaviour and ends in one of these ways: it
    returns 0, at the end of the input or after a read error; it leaves
    with status 0, through the builtin [exit]; it sleeps in [waitpid] for
    ever; or, when the command file named on the command line cannot be
    opened, it leaves with status 1 after [perror], having done nothing
    else. *)
Theorem main_exit_status
    (E : machine) (tokenize : list ascii -> list token)
    (files : string -> option (list input)) (stdin : list input)
    (argv : list string) (w : world) :
  match main_of E tokenize files stdin argv w with
  | Ret r _ => r = 0
  | Exited st w' =>
      st = 0 \/
      (st = 1 /\
       exists name,
         name ∈ argv /\ files name = None /\
         w' = log [Ev_perror name; Ev_exit 1] w)
  | Hung _ => True
  | Fault _ => False
  end.
Proof.
  assert (Hshell : forall quiet st,
    ends_with_0
      ((_ ← set_foreground 0;
        _ ← handle_signal_ign SIGTTOU;
        read_loop (fun s => eval_line E (tokenize s)) quiet st false [] true)
         w)).
  { intros quiet st.
    apply ends_with_0_bind; [intros w0; now split|]. intros _.
    apply ends_with_0_bind; [intros w0; now split|]. intros _.
    apply read_loop_ends_with_0.
    - intros l. apply sound_eval_line.
    - pose proof BUFSIZ_large. simpl. lia. }
  assert (Hleft : forall o : outcome Z, ends_with_0 o ->
    match o with
    | Ret r _ => r = 0
    | Exited st w' =>
        st = 0 \/
        (st = 1 /\
         exists name,
           name ∈ argv /\ files name = None /\
           w' = log [Ev_perror name; Ev_exit 1] w)
    | Hung _ => True
    | Fault _ => False
    end).
  { intros [r w'|st w'|w'|w']; simpl; auto. }
  unfold main_of.
  set (quiet := match argv !! 1%nat with
                | Some arg => String.eqb arg "-q"
                | None => false
                end).
  set (argv' := if quiet then drop 1 argv else argv).
  destruct (argv' !! 1%nat) as [name|] eqn:Hname; [|apply Hleft, Hshell].
  destruct (files name) as [st|] eqn:Hf; [apply Hleft, Hshell|].
  unfold mbind, M_bind, perror, emit, exit, _exit. cbv beta iota.
  right. split; [reflexivity|]. exists name. split; [|split; [exact Hf|]].
  - apply list_elem_of_lookup. subst argv'. destruct quiet.
    + rewrite lookup_drop in Hname. eauto.
    + eauto.
  - unfold log. simpl. now rewrite <- (assoc_L (++)).
Qed.

Example interrupted_read_drops_characters :
  main_of a_machine
    (fun s => [word (String.string_of_list_ascii (List.removelast s))])
    (fun _ => None)
    ([Byte "x"%char; Interrupted] ++
     stream_of [String.list_ascii_of_string "true"])
    ["sh61"; "-q"] a_world
  = Ret 0
      (World 0 101 [] "/home" 50 50 [SIGTTOU]
         [Ev_set_foreground 0; Ev_handle_signal SIGTTOU;
          Ev_waitpid (-1) 1 (-1) None; Ev_waitpid (-1) 1 (-1) None;
          Ev_fork 100; Ev_child_execvp 100 "true" ["true"] true;
          Ev_waitpid (-1) 0 100 (Some 0); Ev_waitpid (-1) 1 (-1) None]).
Proof. vm_compute. reflexivity. Qed.

Example read_error_after_characters :
  main_of a_machine
    (fun s => [word (String.string_of_list_ascii (List.removelast s))])
    (fun _ => None)
    ([Byte "x"%char; Broken] ++
     stream_of [String.list_ascii_of_string "true"])
    ["sh61"; "-q"] a_world
  = Ret 0
      (World 0 100 [] "/home" 50 50 [SIGTTOU]
         [Ev_set_foreground 0; Ev_handle_signal SIGTTOU;
          Ev_perror "sh61"]).
Proof. vm_compute. reflexivity. Qed.

(** ** Events *)

Lemma emits_ret {A} P (a : A) : emits P (mret a).
Proof. intros w. exists []. simpl. split; [now rewrite app_nil_r|constructor]. Qed.

Lemma emits_bind {A B} P (m : M A) (f : A -> M B) :
  emits P m -> (forall a, emits P (f a)) -> emits P (m ≫= f).
Proof.
  intros Hm Hf w. specialize (Hm w). unfold mbind, M_bind.
  destruct (m w) as [a w1|st w1|w1|w1]; simpl in Hm; simpl; try exact Hm.
  destruct Hm as (new1 & Hn1 & Hq1). destruct (Hf a w1) as (new2 & Hn2 & Hq2).
  exists (new1 ++ new2). split.
  - rewrite Hn2, Hn1. now rewrite <- (assoc_L (++)).
  - apply Forall_app. auto.
Qed.

Lemma emits_weaken {A} (P Q : event -> bool) (m : M A) :
  (forall e, P e = true -> Q e = true) -> emits P m -> emits Q m.
Proof.
  intros HPQ Hm w. destruct (Hm w) as (new & Hn & Hq).
  exists new. split; [exact Hn|]. eapply Forall_impl; [exact Hq|]. exact HPQ.
Qed.

Lemma emits_log {A} P (a : A) (e : list event) :
  Forall (fun e => P e = true) e -> emits P (fun w => Ret a (log e w)).
Proof. intros He w. exists e. auto. Qed.

Lemma emits_waitpid pid options : emits command_event (waitpid pid options).
Proof.
  intros w. unfold waitpid.
  assert (Hlog : forall r st,
    exists new, trace (log [Ev_waitpid pid options r st] w) = trace w ++ new /\
                Forall (fun e => command_event e = true) new).
  { intros r st. eexists. split; [reflexivity|]. repeat constructor. }
  assert (Hwaited : forall t q,
    exists new, trace (world_of (waited pid options t q w)) = trace w ++ new /\
                Forall (fun e => command_event e = true) new).
  { intros t q. eexists. split; [reflexivity|]. repeat constructor. }
  destruct (filter _ (children w)) as [|c0 cs]; [apply Hlog|].
  destruct (first_exit _) as [[t q]|].
  - destruct (t <=? now w)%nat; [apply Hwaited|].
    destruct (negb _); [apply Hlog|apply Hwaited].
  - destruct (negb _); [apply Hlog|].
    exists []. simpl. split; [now rewrite app_nil_r|constructor].
Qed.

Lemma emits_start_command E c pgid :
  emits command_event (start_command E c pgid).
Proof.
  assert (Hfault : forall A, emits command_event (@fault A)).
  { intros A w. exists []. simpl. split; [now rewrite app_nil_r|constructor]. }
  unfold start_command.
  destruct (argv_at c 0) as [[arg0|]|]; try apply Hfault.
  destruct (String.eqb arg0 BUILTIN_CD).
  - destruct (argv_at c 1) as [path|]; [|apply Hfault].
    apply emits_bind.
    + intros w. unfold chdir.
      destruct path as [p|]; [destruct (resolve E (cwd w) p)|]; simpl;
        eexists; (split; [reflexivity|]); repeat constructor.
    + intros r. destruct (r =? -1); [|apply emits_ret].
      apply emits_bind; [|intros _; apply emits_ret].
      apply (emits_log _ tt). repeat constructor.
  - destruct (String.eqb arg0 BUILTIN_EXIT).
    { intros w. eexists. split; [reflexivity|]. repeat constructor. }
    apply emits_bind.
    + intros w. unfold fork.
      destruct (length (children w) <? rlimit_nproc E)%nat.
      * destruct (start_command_child E c (Z.pos (next_pid w))) as [f|] eqn:Hf;
          simpl.
        -- eexists. split; [reflexivity|]. constructor; [reflexivity|].
           revert Hf. unfold start_command_child.
           destruct (argv_at (set_pid 0 c) 0) as [[file|]|]; try discriminate.
           destruct (c_strings (argv (set_pid 0 c))) as [args|];
             try discriminate.
           destruct (program E _ file args) as [[l st]|];
             intros [= <-]; repeat constructor.
        -- exists []. split; [now rewrite app_nil_r|constructor].
      * simpl. eexists. split; [reflexivity|]. repeat constructor.
    + intros child_pid. destruct (0 <? child_pid); [apply emits_ret|].
      apply emits_bind; [|intros _; apply emits_ret].
      apply (emits_log _ tt). repeat constructor.
Qed.

Lemma emits_eval_line E s : emits command_event (eval_line E s).
Proof.
  unfold eval_line. apply emits_bind.
  - generalize command_alloc. induction s as [|t s IH]; intros c1;
      cbn [eval_tokens]; [apply emits_ret|].
    apply emits_bind; [apply emits_waitpid|]. intros _. apply IH.
  - intros c1. destruct (argc c1 =? 0); [apply emits_ret|].
    induction c1 as [n a p b|n a p b c' IH] using command_ind; cbn [run_list];
      (destruct (n =? 0); [apply emits_ret|]);
      (apply emits_bind; [apply emits_start_command|]); intros child;
      (apply emits_bind;
       [destruct (b =? 0); [|apply emits_ret];
        apply emits_bind; [apply emits_waitpid|]; intros _; apply emits_ret|]);
      intros _; [apply emits_ret|exact IH].
Qed.

Lemma emits_read_loop_quiet ev st eof buf np :
  (forall l, emits (fun e => negb (is_prompt e)) (ev l)) ->
  emits (fun e => negb (is_prompt e)) (read_loop ev true st eof buf np).
Proof.
  intros Hev. revert np. pattern st, eof, buf.
  apply read_loop_induction. clear st eof buf.
  intros st eof buf IH np.
  assert (Hprompt : emits (fun e => negb (is_prompt e)) (show_prompt np true)).
  { intros w. unfold show_prompt. rewrite andb_false_r.
    exists []. simpl. split; [now rewrite app_nil_r|constructor]. }
  assert (Hpoll : emits (fun e => negb (is_prompt e)) (waitpid (-1) WNOHANG)).
  { eapply emits_weaken; [|apply emits_waitpid]. now intros []. }
  destruct eof; [rewrite read_loop_eof; apply emits_ret|].
  rewrite read_loop_step.
  destruct (read_into buf st) as [error| |st' eof' buf'] eqn:Hr.
  - apply emits_bind; [exact Hprompt|]. intros _.
    apply emits_bind; [|intros _; apply emits_ret].
    destruct error; [|apply emits_ret].
    apply (emits_log _ tt). repeat constructor.
  - apply emits_bind; [exact Hprompt|]. intros _ w.
    exists []. simpl. split; [now rewrite app_nil_r|constructor].
  - destruct (read_into_decreases buf st st' eof' buf' Hr) as [Hd1 Hd2].
    destruct (complete buf') eqn:Hc.
    + apply emits_bind; [exact Hprompt|]. intros _.
      apply emits_bind; [apply Hev|]. intros _.
      apply emits_bind; [exact Hpoll|]. intros _. now apply IH.
    + apply emits_bind; [exact Hprompt|]. intros _.
      apply emits_bind; [exact Hpoll|]. intros _. apply IH. now apply Hd2.
Qed.

(** X14: with [-q] as its first argument the shell prints no prompt,
    whatever the command file or the standard input, to the end of its
    run. *)
Theorem quiet_shell_prints_no_prompt
    (E : machine) (tokenize : list ascii -> list token)
    (files : string -> option (list input)) (stdin : list input)
    (prog : string) (args : list string) (w : world) :
  exists new,
    trace (world_of (main_of E tokenize files stdin (prog :: "-q" :: args) w))
      = trace w ++ new /\
    Forall (fun e => is_prompt e = false) new.
Proof.
  assert (H : emits (fun e => negb (is_prompt e))
                (main_of E tokenize files stdin (prog :: "-q" :: args))).
  { unfold main_of. cbn [lookup list_lookup].
    change (String.eqb "-q" "-q") with true. cbv iota. cbn [drop].
    assert (Hshell : forall st, emits (fun e => negb (is_prompt e))
      (_ ← set_foreground 0;
       _ ← handle_signal_ign SIGTTOU;
       read_loop (fun s => eval_line E (tokenize s)) true st false [] true)).
    { intros st.
      apply emits_bind.
      { intros w0. eexists. split; [reflexivity|]. repeat constructor. }
      intros _. apply emits_bind.
      { intros w0. eexists. split; [reflexivity|]. repeat constructor. }
      intros _. apply emits_read_loop_quiet. intros l.
      eapply emits_weaken; [|apply emits_eval_line]. now intros []. }
    destruct (("-q" :: args) !! 1%nat) as [name|]; [|apply Hshell].
    destruct (files name); [apply Hshell|].
    apply emits_bind; [apply (emits_log _ tt); repeat constructor|].
    intros _ w0. eexists. split; [reflexivity|]. repeat constructor. }
  destruct (H w) as (new & Hn & Hq). exists new. split; [exact Hn|].
  eapply Forall_impl; [exact Hq|]. intros e He. now apply negb_true_iff.
Qed.

(** ** NUL characters *)




